(** * VP-tree pruning oracle, surrogate wrappers and the pruner tuning driver

    A shallow embedding of the parts of the Non-Metric Space Library that
    decide how a VP-tree is pruned and how the projection wrappers pick and
    re-rank their candidates:

    - [searchoracle.h]            : [getOptimMetric] and the [Classify] of
                                    [PolynomialPruner], [TriangIneq] and
                                    [SamplingOracle]
    - [method/proj_vptree.{h,cc}] : [computeDbScan], [SetQueryTimeParamsInternal],
                                    the constructor loop and the two [Search]
    - [method/perm_bin_vptree.cc] : the constructor and [Search]
    - [method/permutation_*.h]    : the candidate counts
    - [tune_vptree.cc]            : [RunExper]
    - [space/space_vector.cc], [space/space_bit_hamming.cc] : [ReadDataset]
    - [method/nndes_old.cc]       : [SearchGreedy]

    Conventions.  [dist_t] is instantiated in the sources with [int], [float]
    and [double]; every value of these types is a rational number, so distances
    and the [double] fields of the pruner are taken in [Q].  Every
    floating-point operation of the code is followed by its rounding to the
    type it is computed in ([float_rnd], [double_rnd]: round to nearest, ties
    to even); conversions from [float] or [int] to [double] are exact.  NaN,
    infinities and subnormal numbers are outside the model.  [unsigned] and
    [size_t] values are taken in [N] and [Z] with the wrap-around written where
    the code can reach it. *)

From Stdlib Require Import ZArith QArith Qround Qpower Lia Lqa Bool Permutation.
From stdpp Require Import gmap strings list.

Local Open Scope Z_scope.

(** * Part I: the program *)

(** ** The C++ operators on scalars *)

(** [x < y] on rationals, as a boolean. *)
Definition Qlt_bool (x y : Q) : bool := negb (Qle_bool y x).

(** [static_cast<size_t>(x)] of a floating-point [x]: the fractional part is
    discarded.  (The conversion is undefined in C++ when the truncated value
    is negative or does not fit; callers below stay inside the range.) *)
Definition Qtrunc (x : Q) : Z := Z.quot (Qnum x) (Zpos (Qden x)).

(** ** Floating-point rounding *)

(** The exponent of a positive rational: [Qlog2 x] is the integer [e] with
    [2^e <= x < 2^(e+1)]. *)
Definition Qlog2 (x : Q) : Z :=
  let k := Z.log2 (Qnum x) - Z.log2 (Zpos (Qden x)) in
  if Qle_bool (2 ^ k) x then k else k - 1.

(** The integer nearest to [y], the even one of the two when [y] is half-way
    between them. *)
Definition round_half_even (y : Q) : Z :=
  let f := Qfloor y in
  match (y - inject_Z f ?= 1 # 2)%Q with
  | Lt => f
  | Gt => f + 1
  | Eq => if Z.even f then f else f + 1
  end.

(** The number with a significand of [prec] bits nearest to a positive [x]:
    [x] is scaled so that its integer part has [prec] bits, rounded to an
    integer and scaled back. *)
Definition round_pos (prec : Z) (x : Q) : Q :=
  let s := Qlog2 x - (prec - 1) in
  (inject_Z (round_half_even (x / 2 ^ s)) * 2 ^ s)%Q.

(** Rounding to nearest, ties to even, with [prec] significant bits (the
    rounding of IEEE 754 arithmetic, the range of the exponent left
    unbounded). *)
Definition round_to (prec : Z) (x : Q) : Q :=
  match (x ?= 0)%Q with
  | Eq => 0%Q
  | Gt => round_pos prec x
  | Lt => (- round_pos prec (- x))%Q
  end.

(** The result of an operation computed in [float] and in [double]. *)
Definition float_rnd : Q -> Q := round_to 24.
Definition double_rnd : Q -> Q := round_to 53.

(** The three types [dist_t] is instantiated with, and the result of an
    arithmetic operation computed in each: the operations on [int] are
    exact (overflow apart). *)
Inductive dist_kind : Set := dist_int | dist_float | dist_double.

Definition rnd_dist (t : dist_kind) : Q -> Q :=
  match t with
  | dist_int => fun x => x
  | dist_float => float_rnd
  | dist_double => double_rnd
  end.

Definition UINT_MAX : N := (2 ^ 32 - 1)%N.
Definition SIZE_MODULUS : Z := 2 ^ 64.

(** A function that may [throw std::runtime_error]. *)
Inductive exn (A : Type) : Type :=
| Throw (what : string)
| Ret (a : A).
Arguments Throw {A} what.
Arguments Ret {A} a.

Definition exn_bind {A B : Type} (m : exn A) (k : A -> exn B) : exn B :=
  match m with
  | Throw w => Throw w
  | Ret a => k a
  end.

Notation "x <-! m ; k" := (exn_bind m (fun x => k))
  (at level 100, m at next level, right associativity).

Definition throws {A : Type} (m : exn A) : bool :=
  match m with Throw _ => true | Ret _ => false end.

(** ** searchoracle.h *)

Module Oracle.

Inductive OptimMetric : Set := IMPR_DIST_COMP | IMPR_EFFICIENCY | IMPR_INVALID.

Definition OPTIM_IMPR_DIST_COMP : string := "dist".
Definition OPTIM_IMPR_EFFICIENCY : string := "time".
Definition OPTIM_METRIC_DEFAULT : string := OPTIM_IMPR_DIST_COMP.

(** [getOptimMetric]; [ToLower] comes from utils.h, which is not among the
    sources, and is a parameter. *)
Definition getOptimMetric (ToLower : string -> string) (s : string)
  : OptimMetric :=
  let s1 := ToLower s in
  if String.eqb s1 OPTIM_IMPR_DIST_COMP then IMPR_DIST_COMP
  else if String.eqb s1 OPTIM_IMPR_EFFICIENCY then IMPR_EFFICIENCY
  else IMPR_INVALID.

Inductive VPTreeVisitDecision : Set :=
| kVisitLeft
| kVisitRight
| kVisitBoth.

(** The four fields that [SetParams] fills in; the constructor sets all of
    them to 1. *)
Record PolynomialPruner : Set := mkPruner {
  alpha_left_  : Q;
  exp_left_    : N;
  alpha_right_ : Q;
  exp_right_   : N
}.

Definition default_pruner : PolynomialPruner := mkPruner 1 1 1 1.

(** Modelled from the spec: [EfficientPow] is declared in pow.h, which is
    not among the sources.  The pruning bound is "alphaL * Delta^eL":
    [EfficientPow (Base, Exp)] is the [Exp]-th power of [Base] for an
    unsigned exponent, here computed in [double]: 1 for the exponent 0,
    [Base] itself for the exponent 1, and one rounded product more for each
    further unit of the exponent. *)
Fixpoint rounded_pow (Base : Q) (n : nat) : Q :=
  match n with
  | O => Base
  | S k => double_rnd (rounded_pow Base k * Base)
  end.

Definition EfficientPow (Base : Q) (Exp : N) : Q :=
  match Exp with
  | N0 => 1%Q
  | Npos e => rounded_pow Base (Pos.to_nat e - 1)
  end.

(** [Classify]: two consecutive guarded tests, each with an early return.
    The difference is computed in [dist_t] and converted to [double]; the
    power and its product with the coefficient are computed in [double]. *)
Definition Classify (dt : dist_kind) (p : PolynomialPruner)
    (distQueryPivot MaxDist MedianDist : Q) : VPTreeVisitDecision :=
  if Qle_bool distQueryPivot MedianDist &&
     (let diff := rnd_dist dt (MedianDist - distQueryPivot) in
      let expDiff := EfficientPow diff (exp_left_ p) in
      Qlt_bool MaxDist (double_rnd (alpha_left_ p * expDiff)))
  then kVisitLeft
  else
  if Qle_bool MedianDist distQueryPivot &&
     (let diff := rnd_dist dt (distQueryPivot - MedianDist) in
      let expDiff := EfficientPow diff (exp_right_ p) in
      Qlt_bool MaxDist (double_rnd (alpha_right_ p * expDiff)))
  then kVisitRight
  else kVisitBoth.

(** The right-hand sides of the two tests, as the code computes them. *)
Definition left_bound (dt : dist_kind) (p : PolynomialPruner) (dq M : Q) : Q :=
  double_rnd (alpha_left_ p * EfficientPow (rnd_dist dt (M - dq)) (exp_left_ p)).

Definition right_bound (dt : dist_kind) (p : PolynomialPruner) (dq M : Q) : Q :=
  double_rnd (alpha_right_ p * EfficientPow (rnd_dist dt (dq - M)) (exp_right_ p)).

(** The two pruning inequalities as propositions. *)
Definition prune_left (dt : dist_kind) (p : PolynomialPruner) (dq Rmax M : Q)
  : Prop :=
  (dq <= M)%Q /\ (Rmax < left_bound dt p dq M)%Q.

Definition prune_right (dt : dist_kind) (p : PolynomialPruner) (dq Rmax M : Q)
  : Prop :=
  (M <= dq)%Q /\ (Rmax < right_bound dt p dq M)%Q.

End Oracle.

(** ** Objects and the surrogate wrappers *)

Module Wrappers.

(** Modelled from the spec: [Object] is declared in object.h, which is not
    among the sources.  "Identifier (non-negative integer, unique within a
    dataset), optional label (signed integer, negative = missing), opaque
    payload bytes."  An [Object] is built by
    [new Object(id, label, datalength, data)] and read back with [id()];
    the payload type [P] stands for the bytes it carries. *)
Record Object (P : Type) : Type := mkObject {
  id      : nat;
  label   : Z;
  payload : P
}.
Arguments mkObject {P} id label payload.
Arguments id {P} o.
Arguments label {P} o.
Arguments payload {P} o.

(** [VectorSpace<dist_t>::CreateObjFromVect] (space_vector.cc) and
    [SpaceBitHamming::CreateObjFromVect] (space_bit_hamming.cc) have the same
    body: the vector becomes the payload. *)
Definition CreateObjFromVect {V : Type} (id : nat) (label : Z) (InpVect : V)
  : Object V := mkObject id label InpVect.

(** The re-ranking loop shared by every [Search]:
    [[
      while (!ResQueue->Empty()) {
        size_t id = ResQueue->TopObject()->id();
        query->CheckAndAddToResult(data_[id]);
        ResQueue->Pop();
      }
    ]]
    [ResQueue] is given in pop order; the result lists the arguments of
    [CheckAndAddToResult] in call order, [None] standing for a read of
    [data_] past its end. *)
Fixpoint rerank {P S : Type} (data_ : list (Object P))
    (ResQueue : list (Object S)) : list (option (Object P)) :=
  match ResQueue with
  | [] => []
  | top :: rest => (data_ !! id top) :: rerank data_ rest
  end.

(** *** method/proj_vptree.h, method/proj_vptree.cc *)

Module ProjectionVPTree.

(** The query-time fields of the wrapper; [VPTreeIndex_] records whether
    the pointer is non-null. *)
Record t : Type := mkState {
  knn_amp_      : Z;
  db_scan_frac_ : Q;
  VPTreeIndex_  : bool
}.

(** [computeDbScan]; [db_scan_frac_] is a [float], so [data_.size()] is
    converted to [float] and the product is computed in [float]. *)
Definition computeDbScan (st : t) (data_size : Z) (K : Z) : Z :=
  if negb (knn_amp_ st =? 0)
  then Z.min ((K * knn_amp_ st) mod SIZE_MODULUS) data_size
  else Qtrunc (float_rnd (db_scan_frac_ st * float_rnd (inject_Z data_size))).

Section Params.
(** [params.h] is not among the sources: [AnyParamManager] keeps the
    parameters as name/value strings; [GetParamOptional] leaves the variable
    alone when the name is absent and converts the value otherwise,
    throwing when the conversion fails.  The two conversions are
    parameters. *)
Variable str_to_size_t : string -> option Z.
Variable str_to_float : string -> option Q.

(** [VPTreeIndex_->SetQueryTimeParams(params)] of vptree.h (not among the
    sources): [Some what] when it throws. *)
Variable VPTree_SetQueryTimeParams : gmap string string -> option string.

Definition hasParam (pmgr : gmap string string) (name : string) : bool :=
  bool_decide (is_Some (pmgr !! name)).

Definition GetParamOptional {A : Type} (conv : string -> option A)
    (pmgr : gmap string string) (name : string) (current : A) : exn A :=
  match pmgr !! name with
  | None => Ret current
  | Some s =>
      match conv s with
      | Some v => Ret v
      | None => Throw ("Failed to convert the value of " +:+ name)
      end
  end.

Definition SetQueryTimeParamsInternal (pmgr : gmap string string) (st : t)
  : exn t :=
  _ <-! (if VPTreeIndex_ st
         then match VPTree_SetQueryTimeParams pmgr with
              | Some what => Throw what
              | None => Ret tt
              end
         else Ret tt);
  if hasParam pmgr "dbScanFrac" && hasParam pmgr "knnAmp"
  then Throw "One shouldn't specify both parameters dbScanFrac and knnAmp"
  else
    let st1 :=
      if hasParam pmgr "knnAmp"
      then mkState (knn_amp_ st) 0 (VPTreeIndex_ st)
      else mkState 0 (db_scan_frac_ st) (VPTreeIndex_ st) in
    let st2 :=
      if negb (hasParam pmgr "dbScanFrac") && negb (hasParam pmgr "knnAmp")
      then mkState 0 0 (VPTreeIndex_ st1)
      else st1 in
    frac <-! GetParamOptional str_to_float pmgr "dbScanFrac"
               (db_scan_frac_ st2);
    amp <-! GetParamOptional str_to_size_t pmgr "knnAmp" (knn_amp_ st2);
    Ret (mkState amp frac (VPTreeIndex_ st2)).
End Params.

Section Index.
Context {P Qry : Type}.
(** [Projection<dist_t>::compProj] of projection.h (not among the sources)
    fills the [projDim_] coordinates of the target vector. *)
Variable compProj : option Qry -> Object P -> list Q.
(** [VPTree::Search] of vptree.h (not among the sources): the k-NN result
    queue of the surrogate search over the indexed objects, in pop order. *)
Variable VPTreeSearch :
  list (Object (list Q)) -> Object (list Q) -> Z -> list (Object (list Q)).
Variable QueryObject : Qry -> Object P.

Definition ProjectOneVect (targSpaceId : nat) (pQuery : option Qry)
    (pSrcObj : Object P) : Object (list Q) :=
  CreateObjFromVect targSpaceId (-1) (compProj pQuery pSrcObj).

(** The constructor loop
    [for (id = 0; id < data.size(); ++id)
       projData_[id] = ProjectOneVect(id, NULL, data[id]);] *)
Definition build_projData (data : list (Object P)) : list (Object (list Q)) :=
  imap (fun id o => ProjectOneVect id None o) data.

(** [Search] for a [KNNQuery] *)
Definition Search_knn (st : t) (data_ : list (Object P))
    (projData_ : list (Object (list Q))) (query : Qry) (K : Z)
  : exn (list (option (Object P))) :=
  let db_scan_qty := computeDbScan st (Z.of_nat (length data_)) K in
  if db_scan_qty =? 0
  then Throw "You need to specify knnAmp > 0 or a sufficiently large dbScanFrac!"
  else
    let QueryObject := ProjectOneVect 0 (Some query) (QueryObject query) in
    let ResQueue := VPTreeSearch projData_ QueryObject db_scan_qty in
    Ret (rerank data_ ResQueue).
End Index.

End ProjectionVPTree.

(** *** method/perm_bin_vptree.cc *)

Module PermBinVPTree.

(** Modelled from the spec: [Binarize] is declared in permutation_utils.h,
    which is not among the sources.  "Take permutation vector, threshold at
    tau: bit i = 1 iff rank of pivot i < tau.  Pack into 32-bit words."
    Bit [i] is stored in word [i / 32] at position [i mod 32]. *)
Definition rank_bit (thresh : nat) (rank : nat) : bool := (rank <? thresh)%nat.

Fixpoint word_of_bits (bs : list bool) : Z :=
  match bs with
  | [] => 0
  | b :: rest => Z.lor (Z.b2z b) (Z.shiftl (word_of_bits rest) 1)
  end.

Definition bin_perm_word_qty (NumPivot : nat) : nat := ((NumPivot + 31) / 32)%nat.

Definition Binarize (perm : list nat) (thresh : nat) : list Z :=
  let bits := map (rank_bit thresh) perm in
  map (fun w => word_of_bits (take 32 (drop (32 * w) bits)))
      (seq 0 (bin_perm_word_qty (length perm))).

(** The number of 1-bits among the low [n] bits of a word, and in a packed
    vector of 32-bit words. *)
Fixpoint popcount (n : nat) (w : Z) : nat :=
  match n with
  | O => 0
  | S k => ((if Z.odd w then 1 else 0) + popcount k (Z.div2 w))%nat
  end.

Definition ones (words : list Z) : nat := sum_list (map (popcount 32) words).

(** [db_scan_qty_ = max(size_t(1), static_cast<size_t>(DbScanFrac * data.size()))];
    [DbScanFrac] is a [double], so the size is converted to [double] and the
    product is computed in [double]. *)
Definition db_scan_qty (DbScanFrac : Q) (data_size : Z) : Z :=
  Z.max 1 (Qtrunc (double_rnd (DbScanFrac * double_rnd (inject_Z data_size)))).

Section Index.
Context {P Qry : Type}.
(** [GetPermutation] of permutation_utils.h (not among the sources): the
    ranks of the pivots for an object, and for a query. *)
Variable GetPermutation : Object P -> list nat.
Variable GetPermutationQ : Qry -> list nat.
Variable VPTreeSearch :
  list (Object (list Z)) -> Object (list Z) -> Z -> list (Object (list Z)).

(** The constructor loop; [CHECK] stops the program when the word count of
    a binarized permutation differs from [bin_perm_word_qty_]. *)
Definition build_one (NumPivot bin_threshold_ : nat) (i : nat)
    (o : Object P) : exn (Object (list Z)) :=
  let TmpPerm := GetPermutation o in
  let binPivot := Binarize TmpPerm bin_threshold_ in
  if bool_decide (length binPivot = bin_perm_word_qty NumPivot)
  then Ret (CreateObjFromVect i (-1) binPivot)
  else Throw "Check failed: binPivot.size() == bin_perm_word_qty_".

Fixpoint build_from (NumPivot bin_threshold_ : nat) (i : nat)
    (data : list (Object P)) : exn (list (Object (list Z))) :=
  match data with
  | [] => Ret []
  | o :: rest =>
      s <-! build_one NumPivot bin_threshold_ i o;
      ss <-! build_from NumPivot bin_threshold_ (S i) rest;
      Ret (s :: ss)
  end.

Definition build_BinPermData (NumPivot bin_threshold_ : nat)
    (data : list (Object P)) : exn (list (Object (list Z))) :=
  build_from NumPivot bin_threshold_ 0 data.

(** [Search] for a [KNNQuery] *)
Definition Search_knn (NumPivot bin_threshold_ : nat) (db_scan_qty_ : Z)
    (data_ : list (Object P)) (BinPermData_ : list (Object (list Z)))
    (query : Qry) : exn (list (option (Object P))) :=
  let perm_q := GetPermutationQ query in
  let binPivot := Binarize perm_q bin_threshold_ in
  if bool_decide (length binPivot = bin_perm_word_qty NumPivot)
  then
    let QueryObject := CreateObjFromVect 0 (-1) binPivot in
    let ResQueue := VPTreeSearch BinPermData_ QueryObject db_scan_qty_ in
    Ret (rerank data_ ResQueue)
  else Throw "Check failed: binPivot.size() == bin_perm_word_qty_".
End Index.

End PermBinVPTree.

End Wrappers.

(** ** tune_vptree.cc *)

Module Tune.
Import Oracle.

(** The arguments of one call of [GetOptimalAlphas] that vary inside
    [RunExper]: the starting coefficients and the two exponents. *)
Record Call : Set := mkCall {
  c_alpha_left  : Q;
  c_exp_left    : N;
  c_alpha_right : Q;
  c_exp_right   : N
}.

(** What one call of [GetOptimalAlphas] writes through its reference
    parameters. *)
Record Local : Set := mkLocal {
  recall_loc      : Q;
  time_best_loc   : Q;
  impr_best_loc   : Q;
  alpha_left_loc  : Q;
  alpha_right_loc : Q
}.

(** The locals of [RunExper] that hold the best result so far. *)
Record Best : Set := mkBest {
  recall      : Q;
  time_best   : Q;
  impr_best   : Q;
  alpha_left  : Q;
  alpha_right : Q;
  exp_left    : N;
  exp_right   : N
}.

(** [float recall = 0, time_best = 0, impr_best = -1, alpha_left = 0,
    alpha_right = 0; unsigned exp_left = 0, exp_right = 0;] *)
Definition Best_init : Best := mkBest 0 0 (-1) 0 0 0 0.

(** The contents of the [bestParams] stream:
    [alphaLeft=..,alphaRight=..,expLeft=..,expRight=..]. *)
Record BestParams : Set := mkBestParams {
  bp_alphaLeft  : Q;
  bp_alphaRight : Q;
  bp_expLeft    : N;
  bp_expRight   : N
}.

Definition bestParams (b : Best) : BestParams :=
  mkBestParams (alpha_left b) (alpha_right b) (exp_left b) (exp_right b).

(** How a run of [RunExper] ends.  [logging.h] is not among the sources:
    [LOG(LIB_FATAL)] is taken to write its message and end the process, which
    is what the code after each such line relies on (it goes on to use the
    space pointer it has just found to be null, and the stream it has just
    failed to open).  [RunExper] returns [void]; on a normal return the only
    trace of the result is the line written to [ResFile], if any. *)
Inductive Outcome : Set :=
| Fatal (msg : string)
| Diverges
| Returned (written : option BestParams).

(** method/proj_vptree.h and method/permutation_vptree.h *)
Definition METH_PROJ_VPTREE : string := "proj_vptree".
Definition METH_PERMUTATION_VPTREE : string := "perm_vptree".

(** The values [start, start + 1, ..] of an unsigned loop counter. *)
Definition counter_values (start len : N) : list N :=
  map N.of_nat (seq (N.to_nat start) (N.to_nat len)).

Record Args : Type := mkArgs {
  AddRestartQty : N;
  methName_     : string;
  SpaceType     : string;
  knnAll        : list N;
  rangeAll      : option (list Q);   (* [SplitStr (RangeArg, rangeAll, ',')] *)
  RangeArg      : string;
  ResFile       : string;
  MinExp        : N;
  MaxExp        : N;
  desiredRecall : Q;                 (* [GetParamRequired (DESIRED_RECALL_PARAM)] *)
  metricParam   : option string;     (* the optional parameter [metric] *)
  space_created : bool;              (* [CreateSpace] returned non-null *)
  file_opened   : bool               (* [ofstream out (ResFile)] succeeded *)
}.

(** The state carried through the two loops of [RunExper]. *)
Record LoopState : Set := mkLoop {
  best  : Best;
  draws : nat;          (* values taken from the generator so far *)
  calls : list Call     (* the calls of [GetOptimalAlphas] made so far *)
}.

Section RunExper.
(** [ToLower] of utils.h and the method names [METH_VPTREE] of
    method/vptree.h and [METH_PERM_BIN_VPTREE] of method/perm_bin_vptree.h
    are not among the sources. *)
Variable ToLower : string -> string.
Variable METH_VPTREE METH_PERM_BIN_VPTREE : string.
(** [GetOptimalAlphas] is declared in tune.h, which is not among the
    sources.  Its result depends on measurements, so it is indexed by the
    number of the call. *)
Variable GetOptimalAlphas : nat -> Call -> Local.
(** The successive values of [exp(normGen(engine))]. *)
Variable normExp : nat -> Q.

(** The body of the inner loop. *)
Definition iteration (ce k : N) (st : LoopState) : LoopState :=
  let expLeft := ce in
  let expRight := ce in
  let '(alpha_left_0, alpha_right_0, draws') :=
    if (0 <? k)%N
    then (normExp (draws st), normExp (S (draws st)), S (S (draws st)))
    else (1%Q, 1%Q, draws st) in
  let c := mkCall alpha_left_0 expLeft alpha_right_0 expRight in
  let r := GetOptimalAlphas (length (calls st)) c in
  let best' :=
    if Qlt_bool (impr_best (best st)) (impr_best_loc r)
    then mkBest (recall_loc r) (time_best_loc r) (impr_best_loc r)
                (alpha_left_loc r) (alpha_right_loc r) expLeft expRight
    else best st in
  mkLoop best' draws' (calls st ++ [c]).

(** [for (unsigned k = 0; k < 1 + AddRestartQty; ++k)] *)
Definition restarts (AddRestartQty : N) (ce : N) (st : LoopState) : LoopState :=
  foldl (fun st k => iteration ce k st) st
        (counter_values 0 ((1 + AddRestartQty) mod 2 ^ 32)%N).

(** [for (unsigned ce = MinExp; ce <= MaxExp; ++ce)], for [MaxExp] below
    [UINT_MAX]. *)
Definition tune_loop (AddRestartQty MinExp MaxExp : N) : LoopState :=
  foldl (fun st ce => restarts AddRestartQty ce st)
        (mkLoop Best_init 0 [])
        (counter_values MinExp (MaxExp + 1 - MinExp)%N).

Definition vAllowedMeth : list string :=
  [METH_VPTREE; METH_PROJ_VPTREE; METH_PERMUTATION_VPTREE; METH_PERM_BIN_VPTREE].

Definition allowedMethList : string :=
  foldl (fun acc s => acc +:+ s +:+ " ") "" vAllowedMeth.

Definition RunExper (a : Args) : Outcome :=
  match rangeAll a with
  | None =>
      Fatal ("Wrong format of the range argument: '" +:+ RangeArg a +:+
             "' Should be a list of coma-separated values.")
  | Some rangeAll =>
    if negb (bool_decide (methName_ a ∈ vAllowedMeth))
    then Fatal ("Wrong method name, " +:+
                "you should specify only a single method from the list: " +:+
                allowedMethList)
    else
    let metricName := default OPTIM_METRIC_DEFAULT (metricParam a) in
    match getOptimMetric ToLower metricName with
    | IMPR_INVALID => Fatal ("Invalid metric name: " +:+ metricName)
    | _ =>
      if (MaxExp a =? 0)%N then Fatal "Exception: minExp can't be zero!"
      else if (MaxExp a <? MinExp a)%N
      then Fatal "Exception: maxExp can't be < minExp"
      else if negb (length rangeAll + length (knnAll a) =? 1)%nat
      then Fatal "You need to specify exactly one range or one knn search!"
      else if negb (space_created a)
      then Fatal ("Cannot create space: '" +:+ SpaceType a)
      else if (MaxExp a =? UINT_MAX)%N then Diverges
      else
        let b := best (tune_loop (AddRestartQty a) (MinExp a) (MaxExp a)) in
        if Qlt_bool (recall b) (desiredRecall a)
        then Fatal "Failed to get the desired recall!"
        else
          if negb (String.eqb (ResFile a) "")
          then
            if negb (file_opened a)
            then Fatal ("Can't open file: '" +:+ ResFile a +:+ "' for writing")
            else Returned (Some (bestParams b))
          else Returned None
    end
  end.
End RunExper.

End Tune.

(** ** Notions used to state the properties *)

Module Spec.
Import Oracle Wrappers Tune.

(** "Candidate count cand = knnAmp * k if knnAmp > 0 else
    ceil (dbScanFrac * N)." *)
Definition cand (knnAmp : Z) (dbScanFrac : Q) (N k : Z) : Z :=
  if 0 <? knnAmp then knnAmp * k else Qceiling (dbScanFrac * inject_Z N).

(** The number of [true] entries of a bit vector. *)
Definition count_true (bs : list bool) : nat := count_occ Bool.bool_dec bs true.

(** The underlying VP-tree, if it is already built, takes the parameters
    without throwing. *)
Definition index_accepts
    (VPTree_SetQueryTimeParams : gmap string string -> option string)
    (pmgr : gmap string string) (st : ProjectionVPTree.t) : Prop :=
  ProjectionVPTree.VPTreeIndex_ st = false \/
  VPTree_SetQueryTimeParams pmgr = None.

(** How a surrogate object is made from the [i]-th object of the dataset,
    in the projection wrapper and in the binarized permutation wrapper. *)
Definition projected_from {P Qry : Type}
    (compProj : option Qry -> Object P -> list Q)
    (i : nat) (o : Object P) (s : Object (list Q)) : Prop :=
  s = ProjectionVPTree.ProjectOneVect compProj i None o.

Definition binarized_from {P : Type} (GetPermutation : Object P -> list nat)
    (bin_threshold_ : nat) (i : nat) (o : Object P) (s : Object (list Z))
  : Prop :=
  s = CreateObjFromVect i (-1)
        (PermBinVPTree.Binarize (GetPermutation o) bin_threshold_).

(** A popped surrogate [s] is re-ranked as [r]: the object read from
    [data_] at [s]'s identifier exists and [s] was built from it. *)
Definition reranked_as {P S : Type} (data_ : list (Object P))
    (built_from : nat -> Object P -> Object S -> Prop)
    (s : Object S) (r : option (Object P)) : Prop :=
  exists o, r = Some o /\ data_ !! id s = Some o /\ built_from (id s) o s.

(** The exponent pair of a call, and the exponent pairs for which
    [GetOptimalAlphas] has been run. *)
Definition exps (c : Call) : N * N := (c_exp_left c, c_exp_right c).

Definition searched_pairs (st : LoopState) : list (N * N) := map exps (calls st).

(** The checks of [RunExper] before the search all pass. *)
Definition reaches_search (ToLower : string -> string)
    (METH_VPTREE METH_PERM_BIN_VPTREE : string) (a : Args) : Prop :=
  exists r, rangeAll a = Some r /\
    methName_ a ∈ vAllowedMeth METH_VPTREE METH_PERM_BIN_VPTREE /\
    getOptimMetric ToLower (default OPTIM_METRIC_DEFAULT (metricParam a))
      <> IMPR_INVALID /\
    MaxExp a <> 0%N /\
    (MinExp a <= MaxExp a)%N /\
    (length r + length (knnAll a) = 1)%nat /\
    space_created a = true /\
    MaxExp a <> UINT_MAX.

(** What the caller of [RunExper] gets back. *)
Definition returns_to_caller (o : Outcome) : bool :=
  match o with Returned _ => true | _ => false end.

Definition reported_params (o : Outcome) : option BestParams :=
  match o with Returned w => w | _ => None end.

(** A tuning run used in the examples: k-NN tuning of a VP-tree with the
    exponent range [lo .. hi], no additional restart, target recall 9/10,
    where every nested grid search reports the same result [r]. *)
Definition sample_search (r : Local) : nat -> Call -> Local := fun _ _ => r.

Definition sample_draws : nat -> Q := fun _ => 1%Q.

Definition sample_args (lo hi : N) : Args :=
  mkArgs 0 "vptree" "l2" [10%N] (Some []) "" "tuned.txt" lo hi (9 # 10)
         (Some "dist") true true.

Definition sample_RunExper (r : Local) (a : Args) : Outcome :=
  RunExper (fun s => s) "vptree" "perm_bin_vptree" (sample_search r)
           sample_draws a.

End Spec.

(** ** searchoracle.h, the other two oracles *)

(** The result of a function that may stop at a failed [CHECK] or read a
    vector past its end. *)
Inductive run (A : Type) : Type :=
| Done (a : A)
| CheckFailed (what : string)
| OutOfRange.
Arguments Done {A} a.
Arguments CheckFailed {A} what.
Arguments OutOfRange {A}.

Module TriangIneq.
Import Oracle.

Record t : Set := mkTriangIneq {
  alpha_left_  : Q;
  alpha_right_ : Q
}.

(** [TriangIneq::Classify]: the two tests are not guarded by a comparison
    of [dist] with [MedianDist].  Both operands are converted to [double]
    before the subtraction, so the difference and the product are computed
    in [double] whatever [dist_t] is. *)
Definition Classify (o : t) (dist MaxDist MedianDist : Q)
  : VPTreeVisitDecision :=
  if Qlt_bool MaxDist (double_rnd (alpha_left_ o * double_rnd (MedianDist - dist)))
  then kVisitLeft
  else if Qlt_bool MaxDist
            (double_rnd (alpha_right_ o * double_rnd (dist - MedianDist)))
  then kVisitRight
  else kVisitBoth.

(** [TriangIneqCreator::Create] *)
Definition Create (alpha_left alpha_right : Q) : t :=
  mkTriangIneq alpha_left alpha_right.

End TriangIneq.

Module SamplingOracle.
Import Oracle.

Record t : Set := mkSamplingOracle {
  NotEnoughData_              : bool;
  QuantilePivotDists          : list Q;
  QuantileMaxPseudoQueryDists : list Q
}.

(** [std::lower_bound (first, last, x) - first] on a sorted vector: the
    index of the first element that is not less than [x]. *)
Fixpoint lower_bound (v : list Q) (x : Q) : nat :=
  match v with
  | [] => 0
  | e :: rest => if Qlt_bool e x then S (lower_bound rest x) else 0
  end.

(** [SamplingOracle::Classify].  [QuantilePivotDists[0]] is read without a
    test of the size of the vector. *)
Definition Classify (o : t) (dist MaxDist MedianDist : Q)
  : run VPTreeVisitDecision :=
  if NotEnoughData_ o || Qeq_bool dist MedianDist then Done kVisitBoth
  else
    match QuantilePivotDists o !! 0%nat with
    | None => OutOfRange
    | Some q0 =>
      if Qlt_bool dist q0 then Done kVisitBoth
      else
        let it := lower_bound (QuantilePivotDists o) dist in
        if (it =? length (QuantilePivotDists o))%nat then Done kVisitBoth
        else
          let quant := it in
          if (length (QuantileMaxPseudoQueryDists o) <=? quant)%nat
          then Done kVisitBoth
          else
            match QuantileMaxPseudoQueryDists o !! quant with
            | None => OutOfRange
            | Some MaxQueryR =>
              if Qle_bool MaxQueryR MaxDist then Done kVisitBoth
              else if Qeq_bool dist MedianDist
              then CheckFailed "dist != MedianDist"
              else Done (if Qlt_bool dist MedianDist
                         then kVisitLeft else kVisitRight)
            end
    end.

End SamplingOracle.

(** ** The range searches of the wrappers and the other candidate counts *)

Module RangeSearch.
Import Wrappers.

Section Projection.
Context {P Qry : Type}.
Variable compProj : option Qry -> Object P -> list Q.
Variable VPTreeSearch :
  list (Object (list Q)) -> Object (list Q) -> Z -> list (Object (list Q)).
Variable QueryObject : Qry -> Object P.

(** [ProjectionVPTree::Search] for a [RangeQuery] *)
Definition ProjectionVPTree_Search (st : ProjectionVPTree.t)
    (data_ : list (Object P)) (projData_ : list (Object (list Q)))
    (query : Qry) : exn (list (option (Object P))) :=
  if Qlt_bool (ProjectionVPTree.db_scan_frac_ st) 0 ||
     Qlt_bool 1 (ProjectionVPTree.db_scan_frac_ st)
  then Throw (Tune.METH_PROJ_VPTREE +:+
              " requires that dbScanFrac is in the range [0,1]")
  else
    let db_scan_qty :=
      ProjectionVPTree.computeDbScan st (Z.of_nat (length data_)) 0 in
    if db_scan_qty =? 0
    then Throw "For the range search you need to specify a sufficiently large dbScanFrac!"
    else
      let QueryObject :=
        ProjectionVPTree.ProjectOneVect compProj 0 (Some query)
          (QueryObject query) in
      let ResQueue := VPTreeSearch projData_ QueryObject db_scan_qty in
      Ret (rerank data_ ResQueue).
End Projection.

End RangeSearch.

(** method/permutation_vptree.h *)
Module PermutationVPTree.

(** [ComputeDbScanQty]; the fraction is a [float] and the product is
    computed in [float]. *)
Definition ComputeDbScanQty (DbScanFrac : Q) (data_size : Z) : Z :=
  Z.max 1 (Qtrunc (float_rnd (DbScanFrac * float_rnd (inject_Z data_size)))).

End PermutationVPTree.

(** method/permutation_index_incremental.h *)
Module PermutationIndexIncremental.

(** [ComputeDbScan]; the fraction is a [float] and the product is computed
    in [float]. *)
Definition ComputeDbScan (db_scan_fraction : Q) (data_size : Z) : Z :=
  Z.max 1 (Qtrunc (float_rnd (db_scan_fraction * float_rnd (inject_Z data_size)))).

End PermutationIndexIncremental.

(** method/permutation_prefix_index.h *)
Module PermutationPrefixIndex.

Record t : Set := mkState {
  min_candidate_ : Z;
  knn_amp_       : Z
}.

Definition computeDbScan (st : t) (data_size : Z) (K : Z) : Z :=
  if negb (knn_amp_ st =? 0)
  then Z.min ((K * knn_amp_ st) mod SIZE_MODULUS) data_size
  else Z.min (min_candidate_ st) data_size.

End PermutationPrefixIndex.

(** ** space/space_vector.cc and space/space_bit_hamming.cc: reading a dataset *)

(** How a reader ends: [LOG(LIB_FATAL)], an exception that leaves the
    function, or a normal return. *)
Inductive reading (A : Type) : Type :=
| ReadFatal (msg : string)
| ReadThrows (what : string)
| ReadOk (a : A).
Arguments ReadFatal {A} msg.
Arguments ReadThrows {A} what.
Arguments ReadOk {A} a.

Module VectorSpace.
Import Wrappers.

Section ReadDataset.
Context {V : Type}.
(** [ReadVec] on one line: the label and the values of the line.  It rests
    on [Object::extractLabel], [ReplaceSomePunct] and the stream extraction,
    none of which is among the sources. *)
Variable ReadVec : string -> Z * list V.
(** The value that [vector::resize] appends. *)
Variable zero : V.

(** [temp.resize (n)] *)
Definition resize (n : nat) (temp : list V) : list V :=
  take n temp ++ replicate (n - length temp) zero.

(** The [while (getline ...)] loop.  [dim] and [linenum] are the locals of
    that name, [GetDimension] is 0 when [config] is null, and the dataset is
    kept in reverse. *)
Fixpoint read_lines (MaxNumObjects : Z) (GetDimension : nat)
    (lines : list string) (linenum : nat) (dim : nat)
    (dataset : list (Object (list V))) : reading (list (Object (list V))) :=
  match lines with
  | [] => ReadOk (reverse dataset)
  | StrLine :: rest =>
    if negb ((MaxNumObjects =? 0) || (Z.of_nat linenum <? MaxNumObjects))
    then ReadOk (reverse dataset)
    else
      let '(label, temp) := ReadVec StrLine in
      let currDim := length temp in
      if negb (dim =? 0)%nat && negb (dim =? currDim)%nat
      then ReadFatal "The # of vector elements doesn't match the # of elements in previous lines."
      else
        let dim := if (dim =? 0)%nat then currDim else dim in
        if negb (GetDimension =? 0)%nat && (currDim <? GetDimension)%nat
        then ReadFatal "The # of vector elements is smaller than the requested # of dimensions."
        else
          let actualDim :=
            if negb (GetDimension =? 0)%nat then GetDimension else dim in
          let temp := resize actualDim temp in
          let id := linenum in
          read_lines MaxNumObjects GetDimension rest (S linenum) dim
            (CreateObjFromVect id label temp :: dataset)
  end.

(** [VectorSpace::ReadDataset]; [file] is [None] when the file cannot be
    opened and the list of its lines otherwise. *)
Definition ReadDataset (GetDimension : nat) (file : option (list string))
    (FileName : string) (MaxNumObjects : Z)
  : reading (list (Object (list V))) :=
  if MaxNumObjects <? 0 then ReadThrows "vector::reserve"
  else
    match file with
    | None => ReadFatal ("Cannot open file: " +:+ FileName)
    | Some lines => read_lines MaxNumObjects GetDimension lines 0 0 []
    end.
End ReadDataset.

End VectorSpace.

Module SpaceBitHamming.
Import Wrappers.

Section ReadDataset.
(** [ReadVec] on one line: [None] when it stops at "Only zeros and ones are
    allowed", the label and the packed words otherwise. *)
Variable ReadVec : string -> option (Z * list Z).

Fixpoint read_lines (MaxNumObjects : Z) (lines : list string)
    (linenum : nat) (wordQty : nat) (dataset : list (Object (list Z)))
  : reading (list (Object (list Z))) :=
  match lines with
  | [] => ReadOk (reverse dataset)
  | StrLine :: rest =>
    if negb ((MaxNumObjects =? 0) || (Z.of_nat linenum <? MaxNumObjects))
    then ReadOk (reverse dataset)
    else
      match ReadVec StrLine with
      | None => ReadFatal "Only zeros and ones are allowed"
      | Some (label, temp) =>
        let currWordQty := length temp in
        if negb (wordQty =? 0)%nat && negb (wordQty =? currWordQty)%nat
        then ReadFatal "The # of vector elements doesn't match the # of elements in previous lines."
        else
          let wordQty := if (wordQty =? 0)%nat then currWordQty else wordQty in
          let id := linenum in
          read_lines MaxNumObjects rest (S linenum) wordQty
            (CreateObjFromVect id label temp :: dataset)
      end
  end.

(** [SpaceBitHamming::ReadDataset]; a file that cannot be opened yields no
    line. *)
Definition ReadDataset (file : option (list string)) (MaxNumObjects : Z)
  : reading (list (Object (list Z))) :=
  if MaxNumObjects <? 0 then ReadThrows "vector::reserve"
  else read_lines MaxNumObjects (default [] file) 0 0 [].
End ReadDataset.

End SpaceBitHamming.

(** ** method/nndes_old.cc: the greedy search over the k-NN graph *)

Module NNDescentMethodOld.

(** One call of [query->CheckAndAddToResult (dist, data_[id])]. *)
Definition Added : Type := Q * nat.

(** The locals [curr] and [currDist] of [SearchGreedy], with the calls of
    [CheckAndAddToResult] made so far. *)
Record Walk : Type := mkWalk {
  curr     : nat;
  currDist : Q;
  added    : list Added
}.

Section Search.
(** [nndesObj_->getNN()], the neighbour lists of the graph built by
    NN-descent (nndes.h is not among the sources); an entry whose key is
    [KNNEntry::BAD] is [None].  A node without a list has no neighbour. *)
Variable nn : list (list (option nat)).
(** [query->DistanceObjLeft (data_[id])] *)
Variable DistanceObjLeft : nat -> Q.

(** The body of [for (const KNNEntry& e : nn[currOld])]. *)
Definition visit (w : Walk) (e : option nat) : Walk :=
  match e with
  | None => w
  | Some currNew =>
      let currDistNew := DistanceObjLeft currNew in
      let added' := added w ++ [(currDistNew, currNew)] in
      if Qlt_bool currDistNew (currDist w)
      then mkWalk currNew currDistNew added'
      else mkWalk (curr w) (currDist w) added'
  end.

(** One round of the [do ... while]: the neighbours of [currOld]. *)
Definition round (w : Walk) : Walk :=
  let currOld := curr w in
  foldl visit w (default [] (nn !! currOld)).

(** [do { ... } while (currOld != curr)], for at most [fuel] rounds. *)
Fixpoint descend (fuel : nat) (w : Walk) : option Walk :=
  match fuel with
  | O => None
  | S fuel =>
      let currOld := curr w in
      let w' := round w in
      if (currOld =? curr w')%nat then Some w' else descend fuel w'
  end.

(** [SearchGreedy]: [starts] are the values of
    [RandomInt () % data_.size ()], one per search attempt. *)
Fixpoint SearchGreedy (fuel : nat) (starts : list nat) (sofar : list Added)
  : option (list Added) :=
  match starts with
  | [] => Some sofar
  | start :: rest =>
      let currDist0 := DistanceObjLeft start in
      match descend fuel (mkWalk start currDist0
                            (sofar ++ [(currDist0, start)])) with
      | None => None
      | Some w => SearchGreedy fuel rest (added w)
      end
  end.

(** [Search] for a [RangeQuery] *)
Definition Search_range : exn unit := Throw "Range search is not supported!".
End Search.

End NNDescentMethodOld.

(** ** Notions used to state the further properties *)

Module Notions.

(** The loop of [ReadDataset] goes on at line number [linenum]. *)
Definition goes_on (MaxNumObjects : Z) (linenum : nat) : bool :=
  (MaxNumObjects =? 0) || (Z.of_nat linenum <? MaxNumObjects).

(** The number of lines read from [linenum] on. *)
Definition lines_read (MaxNumObjects : Z) (linenum available : nat) : nat :=
  if MaxNumObjects =? 0 then available
  else Nat.min available (Z.to_nat (MaxNumObjects - Z.of_nat linenum)).

(** The contents of [best] after the search number [i], called with [c],
    has improved on the previous best. *)
Definition best_of_call (r : Tune.Local) (c : Tune.Call) : Tune.Best :=
  Tune.mkBest (Tune.recall_loc r) (Tune.time_best_loc r)
    (Tune.impr_best_loc r) (Tune.alpha_left_loc r) (Tune.alpha_right_loc r)
    (Tune.c_exp_left c) (Tune.c_exp_right c).

(** The best result so far dominates the results of all searches made. *)
Definition best_dominates (GetOptimalAlphas : nat -> Tune.Call -> Tune.Local)
    (st : Tune.LoopState) : Prop :=
  (-1 <= Tune.impr_best (Tune.best st))%Q /\
  forall i c, Tune.calls st !! i = Some c ->
    (Tune.impr_best_loc (GetOptimalAlphas i c)
     <= Tune.impr_best (Tune.best st))%Q.

(** The best result so far is the initial one or the result of a search
    that has been made. *)
Definition best_is_a_result
    (GetOptimalAlphas : nat -> Tune.Call -> Tune.Local)
    (st : Tune.LoopState) : Prop :=
  Tune.best st = Tune.Best_init \/
  exists i c, Tune.calls st !! i = Some c /\
              Tune.best st = best_of_call (GetOptimalAlphas i c) c.

(** The exponents kept in [best] are equal, and they are those of the
    initial record or lie in the range. *)
Definition best_exps_ok (lo hi : N) (st : Tune.LoopState) : Prop :=
  Tune.exp_left (Tune.best st) = Tune.exp_right (Tune.best st) /\
  (Tune.best st = Tune.Best_init \/
   (lo <= Tune.exp_left (Tune.best st) <= hi)%N).

(** The number of nodes of [l] that are closer to the query than [x]. *)
Fixpoint count_closer (dist : nat -> Q) (l : list nat) (x : Q) : nat :=
  match l with
  | [] => 0
  | j :: rest =>
      ((if Qlt_bool (dist j) x then 1 else 0) + count_closer dist rest x)%nat
  end.

(** Every neighbour named in the graph is one of its nodes. *)
Definition closed_graph (nn : list (list (option nat))) : Prop :=
  forall i l j, nn !! i = Some l -> Some j ∈ l -> (j < length nn)%nat.

(** No neighbour of [c] is closer to the query than [c]. *)
Definition local_minimum (nn : list (list (option nat))) (dist : nat -> Q)
    (c : nat) : Prop :=
  forall l j, nn !! c = Some l -> Some j ∈ l -> (dist c <= dist j)%Q.

(** A graph and distances used in the examples: three nodes at distances
    5, 3 and 1 from the query. *)
Definition sample_graph : list (list (option nat)) :=
  [[Some 1%nat]; [Some 2%nat; None]; [Some 1%nat]].

Definition sample_dist (j : nat) : Q :=
  match j with O => 5 | S O => 3 | _ => 1 end.

(** A line reader used in the examples: every character of the line is one
    value, its code, and the label is -1. *)
Definition sample_ReadVec (line : string) : Z * list Z :=
  (-1, map (fun c => Z.of_nat (Ascii.nat_of_ascii c)) (String.list_ascii_of_string line)).

End Notions.

(** * Part II: properties *)

(** ** Comparisons *)

Lemma Qlt_bool_iff (x y : Q) : Qlt_bool x y = true <-> (x < y)%Q.
Proof.
  unfold Qlt_bool. rewrite negb_true_iff. split.
  - intros Hb. apply Qnot_le_lt. intros Hle.
    apply Qle_bool_iff in Hle. congruence.
  - intros Hlt. destruct (Qle_bool y x) eqn:E; [|reflexivity].
    apply Qle_bool_iff in E. exfalso. exact (Qlt_not_le _ _ Hlt E).
Qed.

Lemma Qlt_bool_false_iff (x y : Q) : Qlt_bool x y = false <-> (y <= x)%Q.
Proof.
  unfold Qlt_bool. rewrite negb_false_iff. apply Qle_bool_iff.
Qed.

Lemma Qtrunc_floor (x : Q) : (0 <= x)%Q -> Qtrunc x = Qfloor x.
Proof.
  destruct x as [n d]. unfold Qle, Qtrunc, Qfloor. simpl. intros Hn.
  apply Z.quot_div_nonneg; lia.
Qed.

(** ** Rounding *)

Module RoundingFacts.

(** *** Powers of 2 *)

Lemma two_pow_pos (k : Z) : (0 < 2 ^ k)%Q.
Proof. apply Qpower_0_lt. reflexivity. Qed.

Lemma two_pow_succ (k : Z) : (2 ^ (k + 1) == 2 * 2 ^ k)%Q.
Proof.
  rewrite Qpower_plus by discriminate. rewrite Qmult_comm. reflexivity.
Qed.

Lemma two_pow_le (a b : Z) : a <= b -> (2 ^ a <= 2 ^ b)%Q.
Proof. intros H. apply Qpower_le_compat_l; [exact H | discriminate]. Qed.

Lemma two_pow_lt_inv (a b : Z) : (2 ^ a < 2 ^ b)%Q -> a < b.
Proof. intros H. apply (Qpower_lt_compat_l_inv 2); [exact H | reflexivity]. Qed.

(** *** The exponent of a positive rational *)

Lemma Zlog2_Q (n : Z) :
  0 < n -> (2 ^ Z.log2 n <= inject_Z n /\ inject_Z n < 2 ^ (Z.log2 n + 1))%Q.
Proof.
  intros Hn. destruct (Z.log2_spec n Hn) as [Hlo Hhi].
  pose proof (Z.log2_nonneg n) as Hnn.
  split.
  - rewrite <- (Zpower_Qpower 2) by exact Hnn. rewrite <- Zle_Qle. exact Hlo.
  - rewrite <- (Zpower_Qpower 2) by lia. rewrite <- Zlt_Qlt.
    replace (Z.log2 n + 1) with (Z.succ (Z.log2 n)) by lia. exact Hhi.
Qed.

Lemma Qlog2_spec (x : Q) :
  (0 < x)%Q -> (2 ^ Qlog2 x <= x /\ x < 2 ^ (Qlog2 x + 1))%Q.
Proof.
  intros Hx. unfold Qlog2.
  set (n := Qnum x). set (d := Zpos (Qden x)).
  set (k := Z.log2 n - Z.log2 d).
  assert (Hn : 0 < n) by (unfold Qlt in Hx; simpl in Hx; lia).
  assert (Hd : 0 < d) by reflexivity.
  destruct (Zlog2_Q n Hn) as [Hn1 Hn2].
  destruct (Zlog2_Q d Hd) as [Hd1 Hd2].
  assert (Ex : (x * inject_Z d == inject_Z n)%Q).
  { unfold Qeq, d, n. simpl. lia. }
  assert (Hdq : (0 < inject_Z d)%Q) by (rewrite <- (Zlt_Qlt 0); exact Hd).
  assert (Hup : (x < 2 ^ (k + 1))%Q).
  { apply (Qmult_lt_r _ _ (inject_Z d) Hdq). rewrite Ex.
    apply (Qlt_le_trans _ _ _ Hn2).
    replace (Z.log2 n + 1) with ((k + 1) + Z.log2 d) by (unfold k; lia).
    rewrite Qpower_plus by discriminate.
    apply Qmult_le_l; [apply two_pow_pos | exact Hd1]. }
  assert (Hlow : (2 ^ (k - 1) < x)%Q).
  { apply (Qmult_lt_r _ _ (inject_Z d) Hdq). rewrite Ex.
    apply (Qlt_le_trans _ (2 ^ (k - 1) * 2 ^ (Z.log2 d + 1))%Q).
    - apply Qmult_lt_l; [apply two_pow_pos | exact Hd2].
    - rewrite <- Qpower_plus by discriminate.
      replace (k - 1 + (Z.log2 d + 1)) with (Z.log2 n) by (unfold k; lia).
      exact Hn1. }
  destruct (Qle_bool (2 ^ k) x) eqn:E.
  - apply Qle_bool_iff in E. split; assumption.
  - split; [apply Qlt_le_weak, Hlow|].
    replace (k - 1 + 1) with k by lia.
    apply Qnot_le_lt. intros H. apply Qle_bool_iff in H. congruence.
Qed.

Lemma Qlog2_le (x y : Q) : (0 < x)%Q -> (x <= y)%Q -> Qlog2 x <= Qlog2 y.
Proof.
  intros Hx Hxy.
  assert (Hy : (0 < y)%Q) by (eapply Qlt_le_trans; eassumption).
  destruct (Qlog2_spec x Hx) as [Hx1 _].
  destruct (Qlog2_spec y Hy) as [_ Hy2].
  assert (H : (2 ^ Qlog2 x < 2 ^ (Qlog2 y + 1))%Q).
  { eapply Qle_lt_trans; [exact Hx1|].
    eapply Qle_lt_trans; [exact Hxy | exact Hy2]. }
  apply two_pow_lt_inv in H. lia.
Qed.

Lemma Qlog2_comp (x y : Q) : (0 < x)%Q -> (x == y)%Q -> Qlog2 x = Qlog2 y.
Proof.
  intros Hx E.
  assert (Hy : (0 < y)%Q) by (rewrite <- E; exact Hx).
  apply Z.le_antisymm; apply Qlog2_le; auto.
  - rewrite E. apply Qle_refl.
  - rewrite E. apply Qle_refl.
Qed.

(** *** Rounding to the nearest integer *)

Ltac Qcompare_prop H :=
  match type of H with
  | (_ ?= _)%Q = Eq => apply Qeq_alt in H
  | (_ ?= _)%Q = Lt => apply Qlt_alt in H
  | (_ ?= _)%Q = Gt => apply Qgt_alt in H
  end.

Lemma round_half_even_bounds (y : Q) :
  Qfloor y <= round_half_even y <= Qfloor y + 1.
Proof.
  unfold round_half_even.
  destruct (_ ?= _)%Q; [destruct (Z.even _)| |]; lia.
Qed.

Lemma round_half_even_comp (x y : Q) :
  (x == y)%Q -> round_half_even x = round_half_even y.
Proof.
  intros E. unfold round_half_even.
  rewrite (Qfloor_comp _ _ E).
  assert (E2 : (x - inject_Z (Qfloor y) == y - inject_Z (Qfloor y))%Q)
    by (rewrite E; reflexivity).
  rewrite (Qcompare_comp _ _ E2 (1#2) (1#2) (Qeq_refl _)). reflexivity.
Qed.

Lemma round_half_even_le (x y : Q) :
  (x <= y)%Q -> round_half_even x <= round_half_even y.
Proof.
  intros Hxy.
  pose proof (Qfloor_resp_le _ _ Hxy) as Hf.
  pose proof (round_half_even_bounds x) as Bx.
  pose proof (round_half_even_bounds y) as By.
  destruct (Z.eq_dec (Qfloor x) (Qfloor y)) as [E|NE]; [|lia].
  unfold round_half_even. rewrite E.
  destruct (y - inject_Z (Qfloor y) ?= 1 # 2)%Q eqn:Cy;
  destruct (x - inject_Z (Qfloor y) ?= 1 # 2)%Q eqn:Cx;
    try (destruct (Z.even (Qfloor y))); try lia; exfalso.
  all: Qcompare_prop Cx; Qcompare_prop Cy; lra.
Qed.

Lemma round_half_even_Z (n : Z) : round_half_even (inject_Z n) = n.
Proof.
  unfold round_half_even. rewrite Qfloor_Z.
  assert (E : (inject_Z n - inject_Z n ?= 1 # 2)%Q = Lt).
  { apply Qlt_alt.
    assert (E0 : (inject_Z n - inject_Z n == 0)%Q) by ring.
    rewrite E0. reflexivity. }
  rewrite E. reflexivity.
Qed.

(** *** Rounding to [prec] significant bits: the rounded value stays in the
    binade of its argument, keeps its sign, and rounding is monotone. *)

Section Precision.


Variable prec : Z.
Hypothesis prec_pos : 1 <= prec.

Lemma scaled_bounds (x : Q) :
  (0 < x)%Q ->
  (inject_Z (2 ^ (prec - 1)) <= x / 2 ^ (Qlog2 x - (prec - 1)) /\
   x / 2 ^ (Qlog2 x - (prec - 1)) < inject_Z (2 ^ prec))%Q.
Proof.
  intros Hx. destruct (Qlog2_spec x Hx) as [H1 H2].
  set (s := Qlog2 x - (prec - 1)) in *.
  pose proof (two_pow_pos s) as Hs.
  rewrite !Zpower_Qpower by lia. change (inject_Z 2) with 2%Q.
  split.
  - apply Qle_shift_div_l; [exact Hs|].
    rewrite <- Qpower_plus by discriminate.
    replace (prec - 1 + s) with (Qlog2 x) by (unfold s; lia). exact H1.
  - apply Qlt_shift_div_r; [exact Hs|].
    rewrite <- Qpower_plus by discriminate.
    replace (prec + s) with (Qlog2 x + 1) by (unfold s; lia). exact H2.
Qed.

Lemma round_pos_bounds (x : Q) :
  (0 < x)%Q ->
  (2 ^ Qlog2 x <= round_pos prec x /\ round_pos prec x <= 2 ^ (Qlog2 x + 1))%Q.
Proof.
  intros Hx. destruct (scaled_bounds x Hx) as [H1 H2].
  unfold round_pos. set (s := Qlog2 x - (prec - 1)) in *.
  set (y := (x / 2 ^ s)%Q) in *.
  pose proof (round_half_even_bounds y) as B.
  assert (F1 : 2 ^ (prec - 1) <= Qfloor y).
  { rewrite <- (Qfloor_Z (2 ^ (prec - 1))). apply Qfloor_resp_le, H1. }
  assert (F2 : Qfloor y < 2 ^ prec).
  { rewrite Zlt_Qlt. eapply Qle_lt_trans; [apply Qfloor_le | exact H2]. }
  pose proof (two_pow_pos s) as Hs.
  split.
  - replace (Qlog2 x) with (prec - 1 + s) at 1 by (unfold s; lia).
    rewrite Qpower_plus by discriminate.
    apply Qmult_le_compat_r; [|apply Qlt_le_weak, Hs].
    rewrite <- (Zpower_Qpower 2) by lia. rewrite <- Zle_Qle. lia.
  - replace (Qlog2 x + 1) with (prec + s) by (unfold s; lia).
    rewrite Qpower_plus by discriminate.
    apply Qmult_le_compat_r; [|apply Qlt_le_weak, Hs].
    rewrite <- (Zpower_Qpower 2) by lia. rewrite <- Zle_Qle. lia.
Qed.

Lemma round_pos_positive (x : Q) : (0 < x)%Q -> (0 < round_pos prec x)%Q.
Proof.
  intros Hx. eapply Qlt_le_trans; [apply (two_pow_pos (Qlog2 x))|].
  apply round_pos_bounds, Hx.
Qed.

Lemma round_pos_comp (x y : Q) :
  (0 < x)%Q -> (x == y)%Q -> (round_pos prec x == round_pos prec y)%Q.
Proof.
  intros Hx E. unfold round_pos. rewrite <- (Qlog2_comp x y Hx E).
  set (s := Qlog2 x - (prec - 1)).
  assert (E2 : (x / 2 ^ s == y / 2 ^ s)%Q) by (rewrite E; reflexivity).
  rewrite (round_half_even_comp _ _ E2). reflexivity.
Qed.

Lemma round_pos_le (x y : Q) :
  (0 < x)%Q -> (x <= y)%Q -> (round_pos prec x <= round_pos prec y)%Q.
Proof.
  intros Hx Hxy.
  assert (Hy : (0 < y)%Q) by (eapply Qlt_le_trans; eassumption).
  pose proof (Qlog2_le x y Hx Hxy) as Hl.
  destruct (Z.eq_dec (Qlog2 x) (Qlog2 y)) as [E|NE].
  - unfold round_pos. rewrite E. set (s := Qlog2 y - (prec - 1)).
    pose proof (two_pow_pos s) as Hs.
    apply Qmult_le_compat_r; [|apply Qlt_le_weak, Hs].
    rewrite <- Zle_Qle. apply round_half_even_le.
    apply Qmult_le_compat_r; [exact Hxy|].
    apply Qlt_le_weak, Qinv_lt_0_compat, Hs.
  - destruct (round_pos_bounds x Hx) as [_ Bx].
    destruct (round_pos_bounds y Hy) as [By _].
    eapply Qle_trans; [exact Bx|]. eapply Qle_trans; [|exact By].
    apply two_pow_le. lia.
Qed.

Lemma round_to_zero : (round_to prec 0 == 0)%Q.
Proof. reflexivity. Qed.

Lemma round_to_comp (x y : Q) :
  (x == y)%Q -> (round_to prec x == round_to prec y)%Q.
Proof.
  intros E. unfold round_to.
  rewrite (Qcompare_comp _ _ E 0 0 (Qeq_refl 0))%Q.
  destruct (y ?= 0)%Q eqn:C.
  - reflexivity.
  - apply Qlt_alt in C. apply Qopp_comp. apply round_pos_comp.
    + rewrite E. lra.
    + rewrite E. reflexivity.
  - apply Qgt_alt in C. apply round_pos_comp; [rewrite E; exact C | exact E].
Qed.

Lemma round_to_sign (x : Q) :
  ((0 < x -> 0 < round_to prec x) /\ (x < 0 -> round_to prec x < 0))%Q.
Proof.
  unfold round_to. destruct (x ?= 0)%Q eqn:C.
  - apply Qeq_alt in C. split; intros H; lra.
  - apply Qlt_alt in C. split; intros H; [lra|].
    assert (H' : (0 < - x)%Q) by lra.
    pose proof (round_pos_positive (- x) H'). lra.
  - apply Qgt_alt in C. split; intros H; [|lra].
    apply round_pos_positive, H.
Qed.

Lemma round_to_le (x y : Q) :
  (x <= y)%Q -> (round_to prec x <= round_to prec y)%Q.
Proof.
  intros Hxy.
  destruct (round_to_sign x) as [Px Nx], (round_to_sign y) as [Py Ny].
  destruct (Qlt_le_dec 0 x) as [Hx|Hx].
  - assert (Hy : (0 < y)%Q) by lra.
    unfold round_to.
    assert (Cx : (x ?= 0)%Q = Gt) by (apply Qgt_alt; exact Hx).
    assert (Cy : (y ?= 0)%Q = Gt) by (apply Qgt_alt; exact Hy).
    rewrite Cx, Cy. apply round_pos_le; assumption.
  - destruct (Qlt_le_dec y 0) as [Hy|Hy].
    + assert (Hx' : (x < 0)%Q) by lra.
      unfold round_to.
      assert (Cx : (x ?= 0)%Q = Lt) by (apply Qlt_alt; exact Hx').
      assert (Cy : (y ?= 0)%Q = Lt) by (apply Qlt_alt; exact Hy).
      rewrite Cx, Cy. apply Qopp_le_compat. apply round_pos_le; lra.
    + apply Qle_trans with 0%Q.
      * apply Qle_lt_or_eq in Hx as [Hx|Hx].
        -- apply Qlt_le_weak, Nx, Hx.
        -- rewrite (round_to_comp x 0 Hx). apply Qle_refl.
      * apply Qle_lt_or_eq in Hy as [Hy|Hy].
        -- apply Qlt_le_weak, Py, Hy.
        -- rewrite <- (round_to_comp 0 y Hy). apply Qle_refl.
Qed.

(** Integers of at most [prec] bits, and 2^prec, are not changed by the
    rounding. *)
Lemma Qlog2_unique (x : Q) (a : Z) :
  (2 ^ a <= x)%Q -> (x < 2 ^ (a + 1))%Q -> Qlog2 x = a.
Proof.
  intros H1 H2.
  assert (Hx : (0 < x)%Q).
  { eapply Qlt_le_trans; [apply (two_pow_pos a) | exact H1]. }
  destruct (Qlog2_spec x Hx) as [S1 S2].
  assert (A : (2 ^ a < 2 ^ (Qlog2 x + 1))%Q)
    by (eapply Qle_lt_trans; eassumption).
  assert (B : (2 ^ Qlog2 x < 2 ^ (a + 1))%Q)
    by (eapply Qle_lt_trans; eassumption).
  apply two_pow_lt_inv in A. apply two_pow_lt_inv in B. lia.
Qed.

Lemma round_pos_exact (x : Q) (m : Z) :
  (x / 2 ^ (Qlog2 x - (prec - 1)) == inject_Z m)%Q ->
  (round_pos prec x == x)%Q.
Proof.
  intros E. unfold round_pos. set (s := Qlog2 x - (prec - 1)) in *.
  rewrite (round_half_even_comp _ _ E), round_half_even_Z, <- E.
  field. intros H. pose proof (two_pow_pos s) as Hs. rewrite H in Hs.
  discriminate.
Qed.

Lemma round_to_Z (n : Z) :
  0 <= n <= 2 ^ prec -> (round_to prec (inject_Z n) == inject_Z n)%Q.
Proof.
  intros [H0 Hn]. unfold round_to.
  destruct (inject_Z n ?= 0)%Q eqn:C; Qcompare_prop C.
  - symmetry. exact C.
  - change 0%Q with (inject_Z 0) in C. rewrite <- Zlt_Qlt in C. lia.
  - change 0%Q with (inject_Z 0) in C. rewrite <- Zlt_Qlt in C.
    destruct (Z.eq_dec n (2 ^ prec)) as [->|Hne].
    + assert (L : Qlog2 (inject_Z (2 ^ prec)) = prec).
      { apply Qlog2_unique.
        - rewrite Zpower_Qpower by lia. apply Qle_refl.
        - rewrite Zpower_Qpower by lia. apply Qpower_lt_compat_l; [lia|reflexivity]. }
      apply (round_pos_exact _ (2 ^ (prec - 1))). rewrite L.
      replace (prec - (prec - 1)) with 1 by lia.
      rewrite !Zpower_Qpower by lia. change (inject_Z 2) with 2%Q.
      replace prec with ((prec - 1) + 1) at 1 by lia.
      rewrite Qpower_plus by discriminate. field.
    + assert (Hl : Z.log2 n < prec) by (apply Z.log2_lt_pow2; lia).
      destruct (Zlog2_Q n C) as [A B].
      assert (L : Qlog2 (inject_Z n) = Z.log2 n)
        by (apply Qlog2_unique; assumption).
      apply (round_pos_exact _ (n * 2 ^ (prec - 1 - Z.log2 n))). rewrite L.
      rewrite inject_Z_mult, Zpower_Qpower by lia. change (inject_Z 2) with 2%Q.
      replace (Z.log2 n - (prec - 1)) with (- (prec - 1 - Z.log2 n)) by lia.
      rewrite Qpower_opp. field.
      intros H. pose proof (two_pow_pos (prec - 1 - Z.log2 n)) as Hs.
      rewrite H in Hs. discriminate.
Qed.

End Precision.

(** The laws of rounding used below, for the three kinds of distance. *)
Lemma rnd_dist_le (dt : dist_kind) (x y : Q) :
  (x <= y)%Q -> (rnd_dist dt x <= rnd_dist dt y)%Q.
Proof.
  destruct dt; simpl; [auto | apply round_to_le; lia | apply round_to_le; lia].
Qed.

Lemma rnd_dist_comp (dt : dist_kind) (x y : Q) :
  (x == y)%Q -> (rnd_dist dt x == rnd_dist dt y)%Q.
Proof.
  destruct dt; simpl; [auto | apply round_to_comp; lia | apply round_to_comp; lia].
Qed.

Lemma rnd_dist_zero (dt : dist_kind) : (rnd_dist dt 0 == 0)%Q.
Proof. destruct dt; reflexivity. Qed.

Lemma rnd_dist_nonneg (dt : dist_kind) (x : Q) :
  (0 <= x)%Q -> (0 <= rnd_dist dt x)%Q.
Proof.
  intros H. rewrite <- (rnd_dist_zero dt). now apply rnd_dist_le.
Qed.

Lemma double_rnd_le (x y : Q) : (x <= y)%Q -> (double_rnd x <= double_rnd y)%Q.
Proof. apply (rnd_dist_le dist_double). Qed.

Lemma double_rnd_comp (x y : Q) : (x == y)%Q -> (double_rnd x == double_rnd y)%Q.
Proof. apply (rnd_dist_comp dist_double). Qed.

Lemma double_rnd_nonneg (x : Q) : (0 <= x)%Q -> (0 <= double_rnd x)%Q.
Proof. apply (rnd_dist_nonneg dist_double). Qed.

Lemma double_rnd_nonpos (x : Q) : (x <= 0)%Q -> (double_rnd x <= 0)%Q.
Proof.
  intros H. apply (double_rnd_le x 0) in H. exact H.
Qed.

Lemma double_rnd_pos (x : Q) : (0 < x)%Q -> (0 < double_rnd x)%Q.
Proof. apply round_to_sign. lia. Qed.

Lemma float_rnd_le (x y : Q) : (x <= y)%Q -> (float_rnd x <= float_rnd y)%Q.
Proof. apply (rnd_dist_le dist_float). Qed.

Lemma float_rnd_nonneg (x : Q) : (0 <= x)%Q -> (0 <= float_rnd x)%Q.
Proof. apply (rnd_dist_nonneg dist_float). Qed.

(** Sizes up to 2^24 are [float] values and sizes up to 2^53 are [double]
    values. *)
Lemma float_rnd_size (n : Z) :
  0 <= n <= 2 ^ 24 -> (float_rnd (inject_Z n) == inject_Z n)%Q.
Proof. apply round_to_Z. lia. Qed.

Lemma double_rnd_size (n : Z) :
  0 <= n <= 2 ^ 53 -> (double_rnd (inject_Z n) == inject_Z n)%Q.
Proof. apply round_to_Z. lia. Qed.

End RoundingFacts.

(** ** The polynomial pruner *)

Module OracleFacts.
Import Oracle RoundingFacts.

Lemma left_test_iff dt p dq Rmax M :
  Qle_bool dq M &&
    Qlt_bool Rmax
      (double_rnd (alpha_left_ p
                   * EfficientPow (rnd_dist dt (M - dq)) (exp_left_ p))) = true
  <-> prune_left dt p dq Rmax M.
Proof.
  unfold prune_left, left_bound.
  rewrite andb_true_iff, Qle_bool_iff, Qlt_bool_iff. reflexivity.
Qed.

Lemma right_test_iff dt p dq Rmax M :
  Qle_bool M dq &&
    Qlt_bool Rmax
      (double_rnd (alpha_right_ p
                   * EfficientPow (rnd_dist dt (dq - M)) (exp_right_ p))) = true
  <-> prune_right dt p dq Rmax M.
Proof.
  unfold prune_right, right_bound.
  rewrite andb_true_iff, Qle_bool_iff, Qlt_bool_iff. reflexivity.
Qed.

Lemma Classify_left_iff dt p dq Rmax M :
  Classify dt p dq Rmax M = kVisitLeft <-> prune_left dt p dq Rmax M.
Proof.
  rewrite <- left_test_iff. unfold Classify. cbv zeta.
  destruct (Qle_bool dq M && _) eqn:EL.
  - split; reflexivity.
  - destruct (Qle_bool M dq && _); split; discriminate.
Qed.

Lemma Classify_right_iff dt p dq Rmax M :
  Classify dt p dq Rmax M = kVisitRight <->
  ~ prune_left dt p dq Rmax M /\ prune_right dt p dq Rmax M.
Proof.
  rewrite <- left_test_iff, <- right_test_iff. unfold Classify. cbv zeta.
  destruct (Qle_bool dq M && _) eqn:EL.
  - split; [discriminate|]. intros [H _]. exfalso. now apply H.
  - destruct (Qle_bool M dq && _) eqn:ER.
    + split; [|reflexivity]. intros _. split; [discriminate|reflexivity].
    + split; [discriminate|]. intros [_ H]. discriminate.
Qed.

Lemma Classify_both_iff dt p dq Rmax M :
  Classify dt p dq Rmax M = kVisitBoth <->
  ~ prune_left dt p dq Rmax M /\ ~ prune_right dt p dq Rmax M.
Proof.
  rewrite <- left_test_iff, <- right_test_iff. unfold Classify. cbv zeta.
  destruct (Qle_bool dq M && _) eqn:EL.
  - split; [discriminate|]. intros [H _]. exfalso. now apply H.
  - destruct (Qle_bool M dq && _) eqn:ER.
    + split; [discriminate|]. intros [_ H]. exfalso. now apply H.
    + split; [|reflexivity]. intros _. split; discriminate.
Qed.

(** The rounded power keeps the sign of a non-negative base and vanishes
    with it when the exponent is not 0. *)
Lemma rounded_pow_nonneg (x : Q) (n : nat) :
  (0 <= x)%Q -> (0 <= rounded_pow x n)%Q.
Proof.
  intros Hx. induction n as [|n IH]; simpl; [exact Hx|].
  apply double_rnd_nonneg. now apply Qmult_le_0_compat.
Qed.

Lemma rounded_pow_zero (x : Q) (n : nat) :
  (x == 0)%Q -> (rounded_pow x n == 0)%Q.
Proof.
  intros Hx. induction n as [|n IH]; simpl; [exact Hx|].
  rewrite (double_rnd_comp _ 0); [reflexivity|].
  apply Qeq_trans with (rounded_pow x n * 0)%Q; [|ring].
  apply Qmult_comp; [reflexivity | exact Hx].
Qed.

Lemma EfficientPow_nonneg (x : Q) (e : N) :
  (0 <= x)%Q -> (0 <= EfficientPow x e)%Q.
Proof.
  intros Hx. destruct e as [|e]; simpl; [discriminate|].
  now apply rounded_pow_nonneg.
Qed.

Lemma EfficientPow_zero (x : Q) (e : N) :
  (x == 0)%Q -> (1 <= e)%N -> (EfficientPow x e == 0)%Q.
Proof.
  intros Hx He. destruct e as [|e]; [lia|]. simpl.
  now apply rounded_pow_zero.
Qed.

(** The bound of a test vanishes at the median when the exponent is not 0,
    and has the sign of the coefficient on the side of the test. *)
Lemma bound_at_median dt (alpha x y : Q) (e : N) :
  (x == y)%Q -> (1 <= e)%N ->
  (double_rnd (alpha * EfficientPow (rnd_dist dt (x - y)) e) == 0)%Q.
Proof.
  intros Hxy He.
  assert (Hd : (rnd_dist dt (x - y) == 0)%Q).
  { rewrite (rnd_dist_comp dt (x - y) 0) by (rewrite Hxy; ring).
    apply rnd_dist_zero. }
  rewrite (double_rnd_comp _ 0); [reflexivity|].
  rewrite (EfficientPow_zero _ e Hd He). ring.
Qed.

Lemma pow_gap_nonneg dt (x y : Q) (e : N) :
  (y <= x)%Q -> (0 <= EfficientPow (rnd_dist dt (x - y)) e)%Q.
Proof.
  intros H. apply EfficientPow_nonneg, rnd_dist_nonneg. lra.
Qed.




(** C5.  Classification is monotone in the pruning radius: once the answer
    is Both for [Rmax1], it is Both for every [Rmax2 >= Rmax1]. *)
Theorem Classify_monotone_Rmax (dt : dist_kind) (p : PolynomialPruner)
    (dq M Rmax1 Rmax2 : Q) :
  (Rmax1 <= Rmax2)%Q ->
  Classify dt p dq Rmax1 M = kVisitBoth ->
  Classify dt p dq Rmax2 M = kVisitBoth.
Proof.
  intros Hle H1. apply Classify_both_iff in H1 as [HL HR].
  apply Classify_both_iff. split.
  - intros [Hdq Hlt]. apply HL. split; [exact Hdq|].
    eapply Qle_lt_trans; eassumption.
  - intros [Hdq Hlt]. apply HR. split; [exact Hdq|].
    eapply Qle_lt_trans; eassumption.
Qed.

Lemma Classify_monotone_Rmax_witness :
  Classify dist_float default_pruner 3 5 4 = kVisitBoth.
Proof.
  apply (Classify_monotone_Rmax dist_float default_pruner 3 4 2 5).
  - unfold Qle. simpl. lia.
  - vm_compute. reflexivity.
Defined.

(** At the median ([dq = M]) with a zero radius the answer is Both for
    every pair of coefficients when both exponents are at least 1: the
    tests are strict. *)
Lemma Classify_median_zero_radius (dt : dist_kind) (p : PolynomialPruner)
    (dq Rmax M : Q) :
  (1 <= exp_left_ p)%N -> (1 <= exp_right_ p)%N ->
  (dq == M)%Q -> (Rmax == 0)%Q ->
  Classify dt p dq Rmax M = kVisitBoth.
Proof.
  intros HeL HeR Hdq HR. apply Classify_both_iff.
  split; intros [_ Hlt]; revert Hlt.
  - unfold left_bound.
    rewrite (bound_at_median dt _ M dq (exp_left_ p)) by (auto; now symmetry).
    rewrite HR. apply Qlt_irrefl.
  - unfold right_bound.
    rewrite (bound_at_median dt _ dq M (exp_right_ p)) by auto.
    rewrite HR. apply Qlt_irrefl.
Qed.

(** The exponent fields are [unsigned], which also holds 0.  With a zero
    exponent the power is 1 whatever the difference, and the strict test
    succeeds at the median for any positive coefficient. *)
Lemma Classify_exponent_zero (dt : dist_kind) (aL aR : Q) (eR : N) (M : Q) :
  (0 < aL)%Q -> Classify dt (mkPruner aL 0 aR eR) M 0 M = kVisitLeft.
Proof.
  intros Ha. apply Classify_left_iff. split; [apply Qle_refl|].
  unfold left_bound. simpl. apply double_rnd_pos. lra.
Qed.

(** C6.  With both exponents 0 and both coefficients 1, at the median
    ([dq = M = 3]) with a zero radius, the pruner answers Left-only and not
    Both, for each of the three distance types. *)
Theorem Classify_zero_exponent_at_median (dt : dist_kind) :
  Classify dt (mkPruner 1 0 1 0) 3 0 3 = kVisitLeft.
Proof. destruct dt; vm_compute; reflexivity. Qed.

(** C10.  A one-sided answer keeps the subtree on the query's side of the
    median: never Left-only when [dq > M], never Right-only when [dq < M]. *)
Theorem Classify_keeps_query_side (dt : dist_kind) (p : PolynomialPruner)
    (dq Rmax M : Q) :
  ((M < dq)%Q -> Classify dt p dq Rmax M <> kVisitLeft) /\
  ((dq < M)%Q -> Classify dt p dq Rmax M <> kVisitRight).
Proof.
  split; intros Hlt Hc.
  - apply Classify_left_iff in Hc as [Hle _].
    exact (Qlt_not_le _ _ Hlt Hle).
  - apply Classify_right_iff in Hc as [_ [Hle _]].
    exact (Qlt_not_le _ _ Hlt Hle).
Qed.

Lemma Classify_keeps_query_side_witness :
  Classify dist_float (mkPruner 100 2 100 2) 5 0 3 <> kVisitLeft /\
  Classify dist_float (mkPruner 100 2 100 2) 1 0 3 <> kVisitRight.
Proof.
  split.
  - apply (proj1 (Classify_keeps_query_side dist_float
                    (mkPruner 100 2 100 2) 5 0 3)).
    reflexivity.
  - apply (proj2 (Classify_keeps_query_side dist_float
                    (mkPruner 100 2 100 2) 1 0 3)).
    reflexivity.
Defined.

End OracleFacts.

(** ** Binarized permutations *)

Module BinarizeFacts.
Import Wrappers Wrappers.PermBinVPTree Spec.

Lemma popcount_zero (n : nat) : popcount n 0 = 0%nat.
Proof. induction n as [|n IH]; simpl; [reflexivity | exact IH]. Qed.

Lemma odd_push_bit (b : bool) (w : Z) :
  Z.odd (Z.lor (Z.b2z b) (Z.shiftl w 1)) = b.
Proof.
  rewrite <- Z.bit0_odd, Z.lor_spec, Z.b2z_bit0.
  rewrite Z.shiftl_spec_low by lia. apply orb_false_r.
Qed.

Lemma div2_push_bit (b : bool) (w : Z) :
  Z.div2 (Z.lor (Z.b2z b) (Z.shiftl w 1)) = w.
Proof.
  rewrite Z.div2_spec, Z.shiftr_lor.
  rewrite Z.shiftr_shiftl_l by lia. rewrite Z.sub_diag, Z.shiftl_0_r.
  destruct b; reflexivity.
Qed.

(** The 1-bits of a packed word are the [true] entries that went in. *)
Lemma popcount_word_of_bits (bs : list bool) (n : nat) :
  (length bs <= n)%nat -> popcount n (word_of_bits bs) = count_true bs.
Proof.
  revert n. induction bs as [|b bs IH]; intros n Hn.
  - apply popcount_zero.
  - destruct n as [|n]; [simpl in Hn; lia|].
    cbn [word_of_bits popcount]. rewrite odd_push_bit, div2_push_bit.
    rewrite IH by (simpl in Hn; lia).
    unfold count_true. destruct b; reflexivity.
Qed.

Lemma count_true_app (l k : list bool) :
  count_true (l ++ k) = (count_true l + count_true k)%nat.
Proof. apply count_occ_app. Qed.

(** Summing over consecutive 32-bit chunks counts a prefix of the bits. *)
Lemma chunks_count (bits : list bool) (c : nat) :
  sum_list (map (fun w => count_true (take 32 (drop (32 * w) bits))) (seq 0 c))
  = count_true (take (32 * c) bits).
Proof.
  induction c as [|c IH].
  - rewrite Nat.mul_0_r. reflexivity.
  - rewrite seq_S, map_app, sum_list_with_app, IH, Nat.add_0_l.
    replace (32 * S c)%nat with (32 * c + 32)%nat by lia.
    rewrite <- take_take_drop, count_true_app.
    cbn [map sum_list_with]. unfold Datatypes.id. lia.
Qed.

Lemma word_qty_covers (m : nat) :
  (m <= 32 * bin_perm_word_qty m < m + 32)%nat.
Proof.
  unfold bin_perm_word_qty.
  pose proof (Nat.div_mod_eq (m + 31) 32) as Hdm.
  pose proof (Nat.mod_upper_bound (m + 31) 32) as Hub.
  lia.
Qed.

Lemma ones_Binarize (perm : list nat) (thresh : nat) :
  ones (Binarize perm thresh) = count_true (map (rank_bit thresh) perm).
Proof.
  unfold ones, Binarize. cbv zeta. rewrite map_map.
  set (bits := map (rank_bit thresh) perm).
  rewrite (map_ext _ (fun w => count_true (take 32 (drop (32 * w) bits)))).
  - rewrite chunks_count. rewrite take_ge; [reflexivity|].
    pose proof (word_qty_covers (length perm)) as Hc.
    unfold bits. rewrite length_map. lia.
  - intros w. apply popcount_word_of_bits. rewrite length_take. lia.
Qed.

(** Among the ranks [0 .. m-1] exactly [min thresh m] lie below the
    threshold. *)
Lemma count_ranks_below (thresh m : nat) :
  count_true (map (rank_bit thresh) (seq 0 m)) = Nat.min thresh m.
Proof.
  induction m as [|m IH].
  - rewrite Nat.min_0_r. reflexivity.
  - rewrite seq_S, map_app, count_true_app, IH, Nat.add_0_l.
    unfold rank_bit, count_true. cbn [map count_occ].
    destruct (Nat.ltb_spec m thresh); simpl; lia.
Qed.

Lemma push_bit_arith (b : bool) (w : Z) :
  Z.lor (Z.b2z b) (Z.shiftl w 1) = 2 * w + Z.b2z b.
Proof.
  apply Z.bits_inj'. intros n Hn.
  destruct (Z.eq_dec n 0) as [->|Hne].
  - rewrite Z.testbit_0_r, Z.bit0_odd. apply odd_push_bit.
  - replace n with (Z.succ (n - 1)) by lia.
    rewrite Z.testbit_succ_r by lia.
    rewrite Z.lor_spec, Z.shiftl_spec by lia.
    replace (Z.succ (n - 1) - 1) with (n - 1) by lia.
    replace (Z.testbit (Z.b2z b) (Z.succ (n - 1))) with false; [reflexivity|].
    destruct b; simpl; [|now rewrite Z.testbit_0_l].
    symmetry. apply Z.bits_above_log2; simpl; lia.
Qed.

(** A packed chunk of [n] bits fits in [n] bits. *)
Lemma word_of_bits_bound (bs : list bool) :
  0 <= word_of_bits bs < 2 ^ Z.of_nat (length bs).
Proof.
  induction bs as [|b bs IH].
  - simpl. lia.
  - cbn [word_of_bits length]. rewrite push_bit_arith.
    rewrite Nat2Z.inj_succ, Z.pow_succ_r by lia.
    destruct b; simpl Z.b2z; lia.
Qed.

Lemma Binarize_words_32bit (perm : list nat) (thresh : nat) :
  Forall (fun w => 0 <= w < 2 ^ 32) (Binarize perm thresh).
Proof.
  unfold Binarize. cbv zeta. apply Forall_map, Forall_forall. intros w _.
  set (chunk := take 32 _).
  pose proof (word_of_bits_bound chunk) as [Hlo Hhi].
  split; [exact Hlo|].
  eapply Z.lt_le_trans; [exact Hhi|].
  apply Z.pow_le_mono_r; [lia|].
  assert (length chunk <= 32)%nat by (unfold chunk; rewrite length_take; lia).
  lia.
Qed.

(** C8.  For a permutation vector over [m] pivots and a threshold [tau],
    the binarized permutation has exactly ceil(m/32) words, each of 32 bits,
    and its words hold min(tau, m) 1-bits in total. *)
Theorem Binarize_words_and_ones (perm : list nat) (m thresh : nat) :
  Permutation perm (seq 0 m) ->
  length (Binarize perm thresh) = bin_perm_word_qty m /\
  (m <= 32 * bin_perm_word_qty m < m + 32)%nat /\
  Forall (fun w => 0 <= w < 2 ^ 32) (Binarize perm thresh) /\
  ones (Binarize perm thresh) = Nat.min thresh m.
Proof.
  intros Hperm.
  assert (Hlen : length perm = m).
  { rewrite (Permutation_length Hperm). apply length_seq. }
  split; [|split; [|split]].
  - unfold Binarize. cbv zeta. rewrite length_map, length_seq. now rewrite Hlen.
  - apply word_qty_covers.
  - apply Binarize_words_32bit.
  - rewrite ones_Binarize, <- count_ranks_below.
    unfold count_true. apply Permutation_count_occ.
    now apply Permutation_map.
Qed.

Lemma Binarize_words_and_ones_witness :
  Binarize [3; 0; 2; 1]%nat 2 = [10] /\
  length (Binarize [3; 0; 2; 1]%nat 2) = 1%nat /\
  ones (Binarize [3; 0; 2; 1]%nat 2) = 2%nat.
Proof.
  assert (Hp : Permutation [3; 0; 2; 1]%nat (seq 0 4)).
  { simpl. apply Permutation_sym.
    apply (@Permutation_cons_app _ _ [3]%nat [2;1]%nat 0%nat). simpl.
    apply (@Permutation_cons_app _ _ [3;2]%nat []%nat 1%nat). simpl.
    apply (@Permutation_cons_app _ _ [3]%nat []%nat 2%nat). simpl.
    apply Permutation_refl. }
  destruct (Binarize_words_and_ones [3; 0; 2; 1]%nat 4 2 Hp)
    as (H1 & _ & _ & H3).
  split; [reflexivity | split; [exact H1 | exact H3]].
Defined.

End BinarizeFacts.

(** ** Candidate counts and query-time parameters of the wrappers *)

Module WrapperFacts.
Import Wrappers Wrappers.ProjectionVPTree Spec RoundingFacts.

Lemma computeDbScan_amp (st : t) (N K : Z) :
  knn_amp_ st <> 0 ->
  computeDbScan st N K = Z.min ((K * knn_amp_ st) mod SIZE_MODULUS) N.
Proof.
  intros Hne. unfold computeDbScan.
  destruct (Z.eqb_spec (knn_amp_ st) 0) as [E|E]; [contradiction|reflexivity].
Qed.

Lemma computeDbScan_frac (st : t) (N K : Z) :
  knn_amp_ st = 0 ->
  computeDbScan st N K
  = Qtrunc (float_rnd (db_scan_frac_ st * float_rnd (inject_Z N))).
Proof.
  intros He. unfold computeDbScan. rewrite He. reflexivity.
Qed.

Lemma inject_Z_nonneg (N : Z) : 0 <= N -> (0 <= inject_Z N)%Q.
Proof. intros HN. unfold Qle. simpl. lia. Qed.

Lemma float_product_nonneg (frac : Q) (N : Z) :
  (0 <= frac)%Q -> 0 <= N ->
  (0 <= float_rnd (frac * float_rnd (inject_Z N)))%Q.
Proof.
  intros Hf HN. apply float_rnd_nonneg, Qmult_le_0_compat; [exact Hf|].
  apply float_rnd_nonneg, inject_Z_nonneg, HN.
Qed.

Lemma double_product_nonneg (frac : Q) (N : Z) :
  (0 <= frac)%Q -> 0 <= N ->
  (0 <= double_rnd (frac * double_rnd (inject_Z N)))%Q.
Proof.
  intros Hf HN. apply double_rnd_nonneg, Qmult_le_0_compat; [exact Hf|].
  apply double_rnd_nonneg, inject_Z_nonneg, HN.
Qed.

(** C4 at three concrete wrappers: with [dbScanFrac = 1/2] over 3 objects
    [computeDbScan] gives 1 candidate where the specification's count is 2;
    with [knnAmp = 2], [k = 3] over 4 objects it gives 4 where the
    specification's count is 6; and with [dbScanFrac = 1] over 16777219
    objects it gives 16777220, the size as a [float], where the
    specification's count is 16777219. *)
Lemma candidate_count_differs_from_spec :
  (computeDbScan (mkState 0 (1 # 2) true) 3 1 = 1 /\
   Spec.cand 0 (1 # 2) 3 1 = 2) /\
  (computeDbScan (mkState 2 0 true) 4 3 = 4 /\
   Spec.cand 2 0 4 3 = 6) /\
  (computeDbScan (mkState 0 1 true) 16777219 1 = 16777220 /\
   Spec.cand 0 1 16777219 1 = 16777219).
Proof. repeat split; vm_compute; reflexivity. Qed.

(** C4, as the code has it.  Over [N] objects, a k-NN query of size [K] on
    the projection wrapper scans min(knnAmp * K, N) candidates when
    [knnAmp > 0] (the product taken in [size_t]) and otherwise the integer
    part of dbScanFrac * N computed in [float] (the size converted to
    [float], the product rounded to [float]), and throws exactly when that
    count is 0; the binarized permutation wrapper has no [knnAmp] and scans
    max(1, .) of the integer part of the same product computed in
    [double]. *)
Theorem candidate_count (st : t) (N K : Z) :
  0 <= N -> 0 <= K ->
  (0 < knn_amp_ st -> K * knn_amp_ st < SIZE_MODULUS ->
     computeDbScan st N K = Z.min (knn_amp_ st * K) N) /\
  (knn_amp_ st = 0 -> (0 <= db_scan_frac_ st)%Q ->
     computeDbScan st N K
     = Qfloor (float_rnd (db_scan_frac_ st * float_rnd (inject_Z N)))) /\
  (forall (P Qry : Type) compProj VPTreeSearch QueryObject
          (data_ : list (Object P)) projData_ (query : Qry),
     Z.of_nat (length data_) = N ->
     (throws (Search_knn compProj VPTreeSearch QueryObject
                st data_ projData_ query K) = true
      <-> computeDbScan st N K = 0)) /\
  (forall DbScanFrac : Q,
     1 <= PermBinVPTree.db_scan_qty DbScanFrac N /\
     ((0 <= DbScanFrac)%Q ->
      PermBinVPTree.db_scan_qty DbScanFrac N
      = Z.max 1 (Qfloor (double_rnd
                           (DbScanFrac * double_rnd (inject_Z N)))))).
Proof.
  intros HN HK. split; [|split; [|split]].
  - intros Hamp Hfit. rewrite computeDbScan_amp by lia.
    rewrite Z.mod_small by (split; [nia | exact Hfit]).
    now rewrite Z.mul_comm.
  - intros Hamp Hfrac. rewrite computeDbScan_frac by exact Hamp.
    apply Qtrunc_floor. now apply float_product_nonneg.
  - intros P Qry compProj VPTreeSearch QueryObject data_ projData_ query Hlen.
    unfold Search_knn. cbv zeta. rewrite Hlen.
    destruct (Z.eqb_spec (computeDbScan st N K) 0) as [Hz|Hnz]; simpl.
    + split; auto.
    + split; [discriminate | contradiction].
  - intros DbScanFrac. split.
    + unfold PermBinVPTree.db_scan_qty. lia.
    + intros Hfrac. unfold PermBinVPTree.db_scan_qty.
      rewrite Qtrunc_floor by now apply double_product_nonneg. reflexivity.
Qed.

Lemma candidate_count_witness :
  computeDbScan (mkState 3 0 true) 100 5 = 15 /\
  computeDbScan (mkState 0 (1 # 4) true) 10 5 = 2.
Proof.
  pose proof (candidate_count (mkState 3 0 true) 100 5) as H1.
  pose proof (candidate_count (mkState 0 (1 # 4) true) 10 5) as H2.
  split.
  - destruct H1 as (H & _); [lia | lia |].
    apply H; [simpl; lia | reflexivity].
  - destruct H2 as (_ & H & _); [lia | lia |].
    rewrite H; [vm_compute; reflexivity | reflexivity | unfold Qle; simpl; lia].
Defined.

Section QueryTimeParams.
Variable str_to_size_t : string -> option Z.
Variable str_to_float : string -> option Q.
Variable VPTree_SetQueryTimeParams : gmap string string -> option string.

#[local] Abbreviation SetParams :=
  (SetQueryTimeParamsInternal str_to_size_t str_to_float
     VPTree_SetQueryTimeParams).

Lemma hasParam_true pmgr name s :
  pmgr !! name = Some s -> hasParam pmgr name = true.
Proof. intros H. unfold hasParam. apply bool_decide_eq_true. eauto. Qed.

Lemma hasParam_false pmgr name :
  pmgr !! name = None -> hasParam pmgr name = false.
Proof.
  intros H. unfold hasParam. apply bool_decide_eq_false.
  rewrite H. intros [x Hx]. discriminate.
Qed.

Lemma index_step pmgr st (k : unit -> exn t) :
  index_accepts VPTree_SetQueryTimeParams pmgr st ->
  exn_bind (if VPTreeIndex_ st
            then match VPTree_SetQueryTimeParams pmgr with
                 | Some what => Throw what
                 | None => Ret tt
                 end
            else Ret tt) k = k tt.
Proof.
  intros [H|H]; rewrite H; [reflexivity|].
  destruct (VPTreeIndex_ st); reflexivity.
Qed.

(** C7.  With both [dbScanFrac] and [knnAmp] present, setting the
    query-time parameters throws, and the exception is the one about the
    two parameters unless the underlying index has thrown first; with
    exactly one of them present (and convertible) the call succeeds and
    stores that parameter, the other being reset to 0. *)
Theorem SetQueryTimeParams_exclusive (pmgr : gmap string string) (st : t) :
  (forall sf sa,
     pmgr !! "dbScanFrac" = Some sf -> pmgr !! "knnAmp" = Some sa ->
     throws (SetParams pmgr st) = true /\
     (index_accepts VPTree_SetQueryTimeParams pmgr st ->
      SetParams pmgr st
      = Throw "One shouldn't specify both parameters dbScanFrac and knnAmp")) /\
  (forall sf frac,
     pmgr !! "dbScanFrac" = Some sf -> pmgr !! "knnAmp" = None ->
     str_to_float sf = Some frac -> index_accepts VPTree_SetQueryTimeParams pmgr st ->
     SetParams pmgr st = Ret (mkState 0 frac (VPTreeIndex_ st))) /\
  (forall sa amp,
     pmgr !! "knnAmp" = Some sa -> pmgr !! "dbScanFrac" = None ->
     str_to_size_t sa = Some amp -> index_accepts VPTree_SetQueryTimeParams pmgr st ->
     SetParams pmgr st = Ret (mkState amp 0 (VPTreeIndex_ st))).
Proof.
  split; [|split].
  - intros sf sa Hf Ha.
    split.
    + unfold SetQueryTimeParamsInternal.
      destruct (VPTreeIndex_ st); simpl;
        [destruct (VPTree_SetQueryTimeParams pmgr); simpl; [reflexivity|] |];
        rewrite (hasParam_true _ _ _ Hf), (hasParam_true _ _ _ Ha);
        reflexivity.
    + intros Hacc. unfold SetQueryTimeParamsInternal.
      rewrite index_step by exact Hacc.
      rewrite (hasParam_true _ _ _ Hf), (hasParam_true _ _ _ Ha).
      reflexivity.
  - intros sf frac Hf Ha Hconv Hacc.
    unfold SetQueryTimeParamsInternal.
    rewrite index_step by exact Hacc.
    rewrite (hasParam_true _ _ _ Hf), (hasParam_false _ _ Ha).
    cbn [andb negb]. unfold GetParamOptional.
    rewrite Hf, Ha, Hconv. reflexivity.
  - intros sa amp Ha Hf Hconv Hacc.
    unfold SetQueryTimeParamsInternal.
    rewrite index_step by exact Hacc.
    rewrite (hasParam_true _ _ _ Ha), (hasParam_false _ _ Hf).
    cbn [andb negb]. unfold GetParamOptional.
    rewrite Hf, Ha, Hconv. reflexivity.
Qed.
End QueryTimeParams.

Lemma SetQueryTimeParams_exclusive_witness :
  SetQueryTimeParamsInternal (fun _ => Some 3) (fun _ => Some (1 # 10))
    (fun _ => None) (<["knnAmp" := "3"]> ∅) (mkState 0 (1 # 10) true)
  = Ret (mkState 3 0 true) /\
  throws (SetQueryTimeParamsInternal (fun _ => Some 3) (fun _ => Some (1 # 10))
            (fun _ => None)
            (<["dbScanFrac" := "0.1"]> (<["knnAmp" := "3"]> ∅))
            (mkState 0 (1 # 10) true)) = true.
Proof.
  split.
  - apply (proj2 (proj2 (SetQueryTimeParams_exclusive
             (fun _ => Some 3) (fun _ => Some (1 # 10)) (fun _ => None)
             (<["knnAmp" := "3"]> ∅) (mkState 0 (1 # 10) true))))
      with (sa := "3"%string).
    + reflexivity.
    + reflexivity.
    + reflexivity.
    + right. reflexivity.
  - apply (proj1 (SetQueryTimeParams_exclusive
             (fun _ => Some 3) (fun _ => Some (1 # 10)) (fun _ => None)
             (<["dbScanFrac" := "0.1"]> (<["knnAmp" := "3"]> ∅))
             (mkState 0 (1 # 10) true)) "0.1"%string "3"%string);
      reflexivity.
Defined.

End WrapperFacts.

(** ** Identifiers of surrogate objects and re-ranking *)

Module RerankFacts.
Import Wrappers Spec.

Lemma rerank_Forall2 {P S : Type} (data_ : list (Object P))
    (surrogates : list (Object S))
    (built_from : nat -> Object P -> Object S -> Prop) :
  (forall i s, surrogates !! i = Some s ->
     id s = i /\ exists o, data_ !! i = Some o /\ built_from i o s) ->
  forall ResQueue,
    (forall s, s ∈ ResQueue -> s ∈ surrogates) ->
    Forall2 (reranked_as data_ built_from) ResQueue (rerank data_ ResQueue).
Proof.
  intros Hbuilt ResQueue. induction ResQueue as [|top rest IH]; intros Hsub.
  - constructor.
  - cbn [rerank]. constructor.
    + assert (Hin : top ∈ surrogates) by (apply Hsub; left).
      apply list_elem_of_lookup in Hin as [i Hi].
      destruct (Hbuilt i top Hi) as (Hid & o & Ho & Hb).
      exists o. rewrite Hid. auto.
    + apply IH. intros s Hs. apply Hsub. now right.
Qed.

Section Projection.
Context {P Qry : Type}.
Variable compProj : option Qry -> Object P -> list Q.

Lemma build_projData_lookup (data : list (Object P)) (i : nat)
    (s : Object (list Q)) :
  ProjectionVPTree.build_projData compProj data !! i = Some s ->
  id s = i /\ label s = -1 /\
  exists o, data !! i = Some o /\ projected_from compProj i o s.
Proof.
  unfold ProjectionVPTree.build_projData. rewrite list_lookup_imap.
  destruct (data !! i) as [o|]; [|discriminate].
  intros [= <-]. repeat split. exists o. split; reflexivity.
Qed.
End Projection.

Section BinPerm.
Context {P : Type}.
Variable GetPermutation : Object P -> list nat.
Variable NumPivot bin_threshold_ : nat.

Lemma build_from_lookup (data : list (Object P)) :
  forall (k : nat) (built : list (Object (list Z))),
    PermBinVPTree.build_from GetPermutation NumPivot bin_threshold_ k data
    = Ret built ->
    forall i s, built !! i = Some s ->
      id s = (k + i)%nat /\ label s = -1 /\
      exists o, data !! i = Some o /\ binarized_from GetPermutation bin_threshold_ (k + i) o s.
Proof.
  induction data as [|o rest IH]; intros k built Hb i s Hi.
  - injection Hb as <-. discriminate.
  - cbn [PermBinVPTree.build_from] in Hb.
    unfold PermBinVPTree.build_one in Hb. cbv zeta in Hb.
    destruct (bool_decide _); [|discriminate].
    cbn [exn_bind] in Hb.
    destruct (PermBinVPTree.build_from _ _ _ (S k) rest) as [w|ss] eqn:E;
      [discriminate|].
    cbn [exn_bind] in Hb. injection Hb as <-.
    destruct i as [|i].
    + injection Hi as <-. rewrite Nat.add_0_r.
      repeat split. exists o. split; reflexivity.
    + cbn in Hi. destruct (IH (S k) ss E i s Hi) as (H1 & H2 & o' & H3 & H4).
      replace (k + S i)%nat with (S k + i)%nat by lia.
      repeat split; try assumption. exists o'. split; assumption.
Qed.
End BinPerm.

(** C9.  Each surrogate object is created with the index of its source
    object as identifier and with label -1, in the projection wrapper and in
    the binarized permutation wrapper alike; hence, the surrogate search
    returning objects of the surrogate dataset, every [data_[id]] read while
    re-ranking the result queue of a k-NN search is the object that the
    popped surrogate was built from. *)
Theorem surrogate_ids_index_the_dataset {P Qry : Type}
    (compProj : option Qry -> Object P -> list Q)
    (QueryObject : Qry -> Object P)
    (GetPermutation : Object P -> list nat)
    (GetPermutationQ : Qry -> list nat)
    (data : list (Object P)) :
  (forall i s,
     ProjectionVPTree.build_projData compProj data !! i = Some s ->
     id s = i /\ label s = -1 /\
     exists o, data !! i = Some o /\ projected_from compProj i o s) /\
  (forall VPTreeSearch st query K res,
     (forall q k s,
        s ∈ VPTreeSearch (ProjectionVPTree.build_projData compProj data) q k ->
        s ∈ ProjectionVPTree.build_projData compProj data) ->
     ProjectionVPTree.Search_knn compProj VPTreeSearch QueryObject st data
       (ProjectionVPTree.build_projData compProj data) query K = Ret res ->
     Forall2 (reranked_as data (projected_from compProj))
       (VPTreeSearch (ProjectionVPTree.build_projData compProj data)
          (ProjectionVPTree.ProjectOneVect compProj 0 (Some query)
             (QueryObject query))
          (ProjectionVPTree.computeDbScan st (Z.of_nat (length data)) K))
       res) /\
  (forall NumPivot bin_threshold_ BinPermData_,
     PermBinVPTree.build_BinPermData GetPermutation NumPivot bin_threshold_ data
     = Ret BinPermData_ ->
     (forall i s,
        BinPermData_ !! i = Some s ->
        id s = i /\ label s = -1 /\
        exists o, data !! i = Some o /\
                  binarized_from GetPermutation bin_threshold_ i o s) /\
     (forall VPTreeSearch db_scan_qty_ query res,
        (forall q k s, s ∈ VPTreeSearch BinPermData_ q k -> s ∈ BinPermData_) ->
        PermBinVPTree.Search_knn GetPermutationQ VPTreeSearch NumPivot
          bin_threshold_ db_scan_qty_ data BinPermData_ query = Ret res ->
        Forall2 (reranked_as data (binarized_from GetPermutation bin_threshold_))
          (VPTreeSearch BinPermData_
             (CreateObjFromVect 0 (-1)
                (PermBinVPTree.Binarize (GetPermutationQ query) bin_threshold_))
             db_scan_qty_)
          res)).
Proof.
  split; [|split].
  - intros i s Hs. exact (build_projData_lookup compProj data i s Hs).
  - intros VPTreeSearch st query K res Hsub Hsearch.
    unfold ProjectionVPTree.Search_knn in Hsearch. cbv zeta in Hsearch.
    destruct (_ =? 0); [discriminate|]. injection Hsearch as <-.
    apply rerank_Forall2 with
      (surrogates := ProjectionVPTree.build_projData compProj data).
    + intros i s Hs. destruct (build_projData_lookup compProj data i s Hs)
        as (H1 & _ & H3). auto.
    + intros s Hs. exact (Hsub _ _ _ Hs).
  - intros NumPivot thr bpd Hbuild.
    unfold PermBinVPTree.build_BinPermData in Hbuild.
    pose proof (build_from_lookup GetPermutation NumPivot thr data 0 bpd Hbuild)
      as Hlk.
    split.
    + intros i s Hs. exact (Hlk i s Hs).
    + intros VPTreeSearch qty query res Hsub Hsearch.
      unfold PermBinVPTree.Search_knn in Hsearch. cbv zeta in Hsearch.
      destruct (bool_decide _); [|discriminate]. injection Hsearch as <-.
      apply rerank_Forall2 with (surrogates := bpd).
      * intros i s Hs. destruct (Hlk i s Hs) as (H1 & _ & H3). auto.
      * intros s Hs. exact (Hsub _ _ _ Hs).
Qed.

Lemma surrogate_ids_index_the_dataset_witness :
  (exists s,
     ProjectionVPTree.build_projData
       (fun (_ : option nat) o => [inject_Z (Z.of_nat (payload o))])
       [mkObject 5 (-1) 10%nat; mkObject 8 (-1) 20%nat] !! 1%nat = Some s /\
     id s = 1%nat /\ label s = -1) /\
  Forall2 (reranked_as [mkObject 5 (-1) 10%nat; mkObject 8 (-1) 20%nat]
             (projected_from
                (fun (_ : option nat) o => [inject_Z (Z.of_nat (payload o))])))
    [mkObject 0 (-1) [10%Q]] [Some (mkObject 5 (-1) 10%nat)].
Proof.
  pose proof (surrogate_ids_index_the_dataset
    (fun (_ : option nat) o => [inject_Z (Z.of_nat (payload o))])
    (fun q : nat => mkObject 0 (-1) q)
    (fun _ => [0%nat]) (fun _ => [0%nat])
    [mkObject 5 (-1) 10%nat; mkObject 8 (-1) 20%nat]) as (H1 & H2 & _).
  split.
  - eexists. split; [reflexivity|].
    destruct (H1 1%nat _ eq_refl) as (Hid & Hlab & _). split; assumption.
  - apply (H2 (fun pd _ k => take (Z.to_nat k) pd)
              (ProjectionVPTree.mkState 1 0 true) 7%nat 1
              [Some (mkObject 5 (-1) 10%nat)]).
    + intros q k s Hs. exact (subseteq_take _ _ _ Hs).
    + reflexivity.
Defined.

End RerankFacts.

(** ** The tuning driver *)

Module TuneFacts.
Import Oracle Tune Spec.

Section Loop.
Variable ToLower : string -> string.
Variable METH_VPTREE METH_PERM_BIN_VPTREE : string.
Variable GetOptimalAlphas : nat -> Call -> Local.
Variable normExp : nat -> Q.

#[local] Abbreviation iteration := (Tune.iteration GetOptimalAlphas normExp).
#[local] Abbreviation restarts := (Tune.restarts GetOptimalAlphas normExp).
#[local] Abbreviation tune_loop := (Tune.tune_loop GetOptimalAlphas normExp).
#[local] Abbreviation RunExper :=
  (Tune.RunExper ToLower METH_VPTREE METH_PERM_BIN_VPTREE
     GetOptimalAlphas normExp).
#[local] Abbreviation reaches_search :=
  (Spec.reaches_search ToLower METH_VPTREE METH_PERM_BIN_VPTREE).

Lemma searched_pairs_iteration ce k st :
  searched_pairs (iteration ce k st) = searched_pairs st ++ [(ce, ce)].
Proof.
  unfold searched_pairs, Tune.iteration.
  destruct (0 <? k)%N; cbn [calls]; rewrite map_app; reflexivity.
Qed.

Lemma searched_pairs_inner ce ks : forall st,
  searched_pairs (foldl (fun st k => iteration ce k st) st ks)
  = searched_pairs st ++ replicate (length ks) (ce, ce).
Proof.
  induction ks as [|k ks IH]; intros st; cbn [foldl length replicate].
  - now rewrite app_nil_r.
  - rewrite IH, searched_pairs_iteration, <- app_assoc. reflexivity.
Qed.

Lemma length_counter_values start len :
  length (counter_values start len) = N.to_nat len.
Proof. unfold counter_values. now rewrite length_map, length_seq. Qed.

Lemma searched_pairs_restarts R ce st :
  searched_pairs (restarts R ce st)
  = searched_pairs st ++
    replicate (N.to_nat ((1 + R) mod 2 ^ 32)) (ce, ce).
Proof.
  unfold Tune.restarts. rewrite searched_pairs_inner, length_counter_values.
  reflexivity.
Qed.

Lemma searched_pairs_outer R ces : forall st,
  searched_pairs (foldl (fun st ce => restarts R ce st) st ces)
  = searched_pairs st ++
    concat (map (fun ce => replicate (N.to_nat ((1 + R) mod 2 ^ 32)) (ce, ce))
                ces).
Proof.
  induction ces as [|ce ces IH]; intros st; cbn [foldl map concat].
  - now rewrite app_nil_r.
  - rewrite IH, searched_pairs_restarts, <- app_assoc. reflexivity.
Qed.

Lemma searched_pairs_tune_loop R lo hi :
  searched_pairs (tune_loop R lo hi)
  = concat (map (fun ce => replicate (N.to_nat ((1 + R) mod 2 ^ 32)) (ce, ce))
                (counter_values lo (hi + 1 - lo))).
Proof. unfold Tune.tune_loop. now rewrite searched_pairs_outer. Qed.

Lemma elem_of_counter_values (x start len : N) :
  x ∈ counter_values start len <-> (start <= x < start + len)%N.
Proof.
  unfold counter_values. rewrite list_elem_of_fmap. split.
  - intros (n & -> & Hn). apply list_elem_of_In, in_seq in Hn. lia.
  - intros Hx. exists (N.to_nat x). split; [now rewrite N2Nat.id|].
    apply list_elem_of_In, in_seq. lia.
Qed.

(** C2, as the code has it.  For an exponent range [MinExp <= MaxExp] (so
    for every range with [1 <= MinExp <= MaxExp]) the nested grid search is
    run for the exponent pairs [(e, e)] with [MinExp <= e <= MaxExp], and for
    no other pair: both exponents are always the same loop counter. *)
Theorem searched_pairs_diagonal (R lo hi : N) :
  (lo <= hi)%N -> (hi < UINT_MAX)%N -> (R < UINT_MAX)%N ->
  forall eL eR : N,
    (eL, eR) ∈ searched_pairs (tune_loop R lo hi)
    <-> eL = eR /\ (lo <= eL <= hi)%N.
Proof.
  intros Hle Hhi HR eL eR.
  rewrite searched_pairs_tune_loop, list_elem_of_In, in_concat.
  assert (Hn : N.to_nat ((1 + R) mod 2 ^ 32) <> 0%nat).
  { unfold UINT_MAX in HR. rewrite N.mod_small by lia. lia. }
  split.
  - intros (l & Hl & Hin). apply list_elem_of_In in Hl, Hin.
    apply list_elem_of_fmap in Hl as (ce & -> & Hce).
    apply elem_of_replicate in Hin as [[= -> ->] _].
    apply elem_of_counter_values in Hce. split; [reflexivity|lia].
  - intros [<- Hrange].
    exists (replicate (N.to_nat ((1 + R) mod 2 ^ 32)) (eL, eL)). split.
    + apply list_elem_of_In, list_elem_of_fmap. exists eL.
      split; [reflexivity|]. apply elem_of_counter_values. lia.
    + apply list_elem_of_In, elem_of_replicate. auto.
Qed.

(** The recall kept in [best] stays below a positive target as long as
    every search reports a recall below it. *)
Lemma recall_below_iteration (target : Q) ce k st :
  (forall n c, recall_loc (GetOptimalAlphas n c) < target)%Q ->
  (recall (best st) < target)%Q ->
  (recall (best (iteration ce k st)) < target)%Q.
Proof.
  intros HG Hst. unfold Tune.iteration.
  destruct (0 <? k)%N; cbn [best];
    destruct (Qlt_bool _ _); cbn [recall]; auto.
Qed.

Lemma recall_below_restarts (target : Q) R ce st :
  (forall n c, recall_loc (GetOptimalAlphas n c) < target)%Q ->
  (recall (best st) < target)%Q ->
  (recall (best (restarts R ce st)) < target)%Q.
Proof.
  intros HG. unfold Tune.restarts.
  generalize (counter_values 0 ((1 + R) mod 2 ^ 32)). intros ks.
  revert st. induction ks as [|k ks IH]; intros st Hst; cbn [foldl].
  - exact Hst.
  - apply IH. now apply recall_below_iteration.
Qed.

Lemma recall_below_tune_loop (target : Q) R lo hi :
  (0 < target)%Q ->
  (forall n c, recall_loc (GetOptimalAlphas n c) < target)%Q ->
  (recall (best (tune_loop R lo hi)) < target)%Q.
Proof.
  intros Hpos HG. unfold Tune.tune_loop.
  generalize (counter_values lo (hi + 1 - lo)). intros ces.
  assert (H0 : (recall (best (mkLoop Best_init 0 [])) < target)%Q)
    by exact Hpos.
  revert H0. generalize (mkLoop Best_init 0 []).
  induction ces as [|ce ces IH]; intros st Hst; cbn [foldl].
  - exact Hst.
  - apply IH. now apply recall_below_restarts.
Qed.

Lemma RunExper_after_checks (a : Args) :
  reaches_search a ->
  RunExper a =
    let b := best (tune_loop (AddRestartQty a) (MinExp a) (MaxExp a)) in
    if Qlt_bool (recall b) (desiredRecall a)
    then Fatal "Failed to get the desired recall!"
    else if negb (String.eqb (ResFile a) "")
         then if negb (file_opened a)
              then Fatal ("Can't open file: '" +:+ ResFile a +:+ "' for writing")
              else Returned (Some (bestParams b))
         else Returned None.
Proof.
  intros (r & Hr & Hm & Hmet & Hmax & Hle & Hone & Hsp & Hum).
  unfold Tune.RunExper. rewrite Hr.
  rewrite (bool_decide_eq_true_2 _ Hm). cbn [negb].
  destruct (getOptimMetric ToLower _); [| |contradiction];
    (destruct (N.eqb_spec (MaxExp a) 0); [contradiction|]);
    (destruct (N.ltb_spec (MaxExp a) (MinExp a)); [lia|]);
    rewrite Hone, Hsp; cbn [Nat.eqb negb];
    (destruct (N.eqb_spec (MaxExp a) UINT_MAX); [contradiction|]);
    reflexivity.
Qed.

(** C3, as the code has it.  When the recall of the best configuration is
    below the target after the whole search (in particular when every
    nested grid search reports a recall below a positive target), the run
    ends in the fatal log line "Failed to get the desired recall!": the
    process stops there, nothing is returned to the caller and no
    parameters are written. *)
Theorem tuning_failure_is_fatal (a : Args) :
  reaches_search a ->
  ((recall (best (tune_loop (AddRestartQty a) (MinExp a) (MaxExp a)))
      < desiredRecall a)%Q ->
   RunExper a = Fatal "Failed to get the desired recall!") /\
  ((0 < desiredRecall a)%Q ->
   (forall n c, recall_loc (GetOptimalAlphas n c) < desiredRecall a)%Q ->
   RunExper a = Fatal "Failed to get the desired recall!" /\
   returns_to_caller (RunExper a) = false /\
   reported_params (RunExper a) = None).
Proof.
  intros Hchk.
  assert (Hfail :
    (recall (best (tune_loop (AddRestartQty a) (MinExp a) (MaxExp a)))
       < desiredRecall a)%Q ->
    RunExper a = Fatal "Failed to get the desired recall!").
  { intros Hlt. rewrite RunExper_after_checks by exact Hchk. cbv zeta.
    apply Qlt_bool_iff in Hlt. now rewrite Hlt. }
  split; [exact Hfail|].
  intros Hpos HG.
  rewrite Hfail by (now apply recall_below_tune_loop).
  repeat split.
Qed.
End Loop.

(** C2 at the range [1 .. 2]: the pair (1, 2) lies in the lattice of the
    range, yet the nested grid search is run for (1, 1) and (2, 2) only. *)
Lemma offdiagonal_pair_not_searched :
  searched_pairs (Tune.tune_loop (sample_search (mkLocal 1 1 1 1 1))
                    sample_draws 0 1 2)
    = [(1, 1); (2, 2)]%N /\
  ~ (forall eL eR : N,
       (1 <= eL <= 2)%N -> (1 <= eR <= 2)%N ->
       (eL, eR) ∈ searched_pairs
                    (Tune.tune_loop (sample_search (mkLocal 1 1 1 1 1))
                       sample_draws 0 1 2)).
Proof.
  assert (E : searched_pairs
                (Tune.tune_loop (sample_search (mkLocal 1 1 1 1 1))
                   sample_draws 0 1 2) = [(1, 1); (2, 2)]%N)
    by (vm_compute; reflexivity).
  split; [exact E|].
  intros H. specialize (H 1%N 2%N ltac:(lia) ltac:(lia)).
  rewrite E in H. apply list_elem_of_In in H. simpl in H.
  destruct H as [H|[H|[]]]; discriminate H.
Qed.

Lemma searched_pairs_diagonal_witness :
  (2, 2)%N ∈ searched_pairs
               (Tune.tune_loop (sample_search (mkLocal 1 1 1 1 1))
                  sample_draws 0 1 2).
Proof.
  apply (proj2 (searched_pairs_diagonal (sample_search (mkLocal 1 1 1 1 1))
                  sample_draws 0 1 2
                  ltac:(lia) ltac:(reflexivity) ltac:(reflexivity)
                  2%N 2%N)).
  split; [reflexivity | lia].
Defined.

Lemma sample_args_reach_search (lo hi : N) :
  (1 <= lo <= hi)%N -> (hi < UINT_MAX)%N ->
  Spec.reaches_search (fun s => s) "vptree" "perm_bin_vptree"
    (sample_args lo hi).
Proof.
  intros Hr Hhi. exists []. cbn. repeat split; try (discriminate || lia).
  apply list_elem_of_In. simpl. auto.
Qed.

(** C3 at a run whose only search reports recall 1/2 against the target
    9/10: the best observed coefficients are (2, 2) with exponents (1, 1),
    but the run ends in the fatal log line; the caller is not returned to
    and no parameters come out. *)
Lemma tuning_failure_reports_nothing :
  bestParams (best (Tune.tune_loop (sample_search (mkLocal (1 # 2) 1 3 2 2))
                      sample_draws 0 1 1))
    = mkBestParams 2 2 1 1 /\
  sample_RunExper (mkLocal (1 # 2) 1 3 2 2) (sample_args 1 1)
    = Fatal "Failed to get the desired recall!" /\
  returns_to_caller
    (sample_RunExper (mkLocal (1 # 2) 1 3 2 2) (sample_args 1 1)) = false /\
  reported_params
    (sample_RunExper (mkLocal (1 # 2) 1 3 2 2) (sample_args 1 1)) = None.
Proof. repeat split; vm_compute; reflexivity. Qed.

Lemma tuning_failure_is_fatal_witness :
  sample_RunExper (mkLocal (1 # 2) 1 3 2 2) (sample_args 1 3)
    = Fatal "Failed to get the desired recall!".
Proof.
  unfold sample_RunExper.
  destruct (tuning_failure_is_fatal (fun s => s) "vptree" "perm_bin_vptree"
              (sample_search (mkLocal (1 # 2) 1 3 2 2)) sample_draws
              (sample_args 1 3)) as [_ Hall].
  - apply sample_args_reach_search; [lia | reflexivity].
  - destruct Hall as (Hfatal & _ & _).
    + reflexivity.
    + intros n c. reflexivity.
    + exact Hfatal.
Defined.

End TuneFacts.

(** * Part III: further properties of the code *)

(** ** The pruning oracles *)

Module OracleMore.
Import Oracle RoundingFacts.

(** Reading the tests of the triangle-inequality oracle. *)
Lemma TriangIneq_left_iff o d R M :
  TriangIneq.Classify o d R M = kVisitLeft
  <-> (R < double_rnd (TriangIneq.alpha_left_ o * double_rnd (M - d)))%Q.
Proof.
  unfold TriangIneq.Classify. rewrite <- Qlt_bool_iff.
  destruct (Qlt_bool R
              (double_rnd (TriangIneq.alpha_left_ o * double_rnd (M - d)))).
  - split; reflexivity.
  - destruct (Qlt_bool R _); split; discriminate.
Qed.

Lemma TriangIneq_right_iff o d R M :
  TriangIneq.Classify o d R M = kVisitRight
  <-> ~ (R < double_rnd (TriangIneq.alpha_left_ o * double_rnd (M - d)))%Q /\
      (R < double_rnd (TriangIneq.alpha_right_ o * double_rnd (d - M)))%Q.
Proof.
  unfold TriangIneq.Classify. rewrite <- !Qlt_bool_iff.
  destruct (Qlt_bool R
              (double_rnd (TriangIneq.alpha_left_ o * double_rnd (M - d)))).
  - split; [discriminate|]. intros [H _]. now exfalso.
  - destruct (Qlt_bool R _).
    + split; [|reflexivity]. intros _. split; [discriminate|reflexivity].
    + split; [discriminate|]. intros [_ H]. discriminate.
Qed.

Lemma TriangIneq_both_iff o d R M :
  TriangIneq.Classify o d R M = kVisitBoth
  <-> ~ (R < double_rnd (TriangIneq.alpha_left_ o * double_rnd (M - d)))%Q /\
      ~ (R < double_rnd (TriangIneq.alpha_right_ o * double_rnd (d - M)))%Q.
Proof.
  unfold TriangIneq.Classify. rewrite <- !Qlt_bool_iff.
  destruct (Qlt_bool R
              (double_rnd (TriangIneq.alpha_left_ o * double_rnd (M - d)))).
  - split; [discriminate|]. intros [H _]. now exfalso.
  - destruct (Qlt_bool R _).
    + split; [discriminate|]. intros [_ H]. now exfalso.
    + split; [|reflexivity]. intros _. split; discriminate.
Qed.

(** A non-negative coefficient times a non-positive difference, both
    products rounded, is not above a non-negative radius. *)
Lemma stretched_gap_not_above (a x R : Q) :
  (0 <= a)%Q -> (x <= 0)%Q -> (0 <= R)%Q ->
  ~ (R < double_rnd (a * double_rnd x))%Q.
Proof.
  intros Ha Hx HR Hlt.
  pose proof (double_rnd_nonpos x Hx) as H1.
  assert (H2 : (a * double_rnd x <= 0)%Q) by nra.
  pose proof (double_rnd_nonpos _ H2) as H3. lra.
Qed.

(** The rounded product vanishes with the difference. *)
Lemma stretched_zero_gap (a x : Q) :
  (x == 0)%Q -> (double_rnd (a * double_rnd x) == 0)%Q.
Proof.
  intros Hx. rewrite (double_rnd_comp _ 0); [reflexivity|].
  rewrite (double_rnd_comp x 0 Hx). change (double_rnd 0) with 0%Q. ring.
Qed.

(** X1.  With non-negative coefficients and a non-negative radius, the
    triangle-inequality oracle answers Left-only only for [dist < M] and
    Right-only only for [dist > M], although its tests do not compare
    [dist] with the median. *)
Theorem TriangIneq_keeps_query_side o d R M :
  (0 <= TriangIneq.alpha_left_ o)%Q -> (0 <= TriangIneq.alpha_right_ o)%Q ->
  (0 <= R)%Q ->
  (TriangIneq.Classify o d R M = kVisitLeft -> (d < M)%Q) /\
  (TriangIneq.Classify o d R M = kVisitRight -> (M < d)%Q).
Proof.
  intros HL HR HR0. split; intros Hc.
  - apply TriangIneq_left_iff in Hc.
    apply Qnot_le_lt. intros Hle.
    apply (stretched_gap_not_above _ (M - d) R HL); [lra | exact HR0 | exact Hc].
  - apply TriangIneq_right_iff in Hc as [_ Hc].
    apply Qnot_le_lt. intros Hle.
    apply (stretched_gap_not_above _ (d - M) R HR); [lra | exact HR0 | exact Hc].
Qed.

Lemma TriangIneq_keeps_query_side_witness :
  TriangIneq.Classify (TriangIneq.mkTriangIneq 2 3) 5 1 3 = kVisitRight /\
  (3 < 5)%Q.
Proof.
  split; [vm_compute; reflexivity|].
  apply (proj2 (TriangIneq_keeps_query_side
                  (TriangIneq.mkTriangIneq 2 3) 5 1 3
                  ltac:(unfold Qle; simpl; lia) ltac:(unfold Qle; simpl; lia)
                  ltac:(unfold Qle; simpl; lia))).
  vm_compute. reflexivity.
Defined.

(** X2.  Over [double] distances, with non-negative coefficients and a
    non-negative radius, the triangle-inequality oracle takes the same
    decision as the polynomial pruner with both exponents equal to 1.  Over
    [float] distances the two can differ, because the pruner takes the
    difference in [float] and the triangle-inequality oracle in [double]:
    with coefficients 1, [dist = 3 * 2^-25], [MaxDist = 1] and
    [MedianDist = 1 + 2^-23] the first answers Both and the second
    Left-only. *)
Theorem TriangIneq_is_polynomial_of_degree_one :
  (forall aL aR d R M,
     (0 <= aL)%Q -> (0 <= aR)%Q -> (0 <= R)%Q ->
     TriangIneq.Classify (TriangIneq.mkTriangIneq aL aR) d R M
     = Classify dist_double (mkPruner aL 1 aR 1) d R M) /\
  (TriangIneq.Classify (TriangIneq.mkTriangIneq 1 1)
     (3 # 33554432) 1 (8388609 # 8388608) = kVisitLeft /\
   Classify dist_float (mkPruner 1 1 1 1)
     (3 # 33554432) 1 (8388609 # 8388608) = kVisitBoth).
Proof.
  split; [|split; vm_compute; reflexivity].
  intros aL aR d R M HL HR HR0.
  assert (Hleft : prune_left dist_double (mkPruner aL 1 aR 1) d R M
                  <-> (R < double_rnd (aL * double_rnd (M - d)))%Q).
  { unfold prune_left, left_bound.
    cbn [alpha_left_ exp_left_ rnd_dist EfficientPow rounded_pow Pos.to_nat
         Pos.iter_op Nat.sub].
    split; [tauto|]. intros Hlt. split; [|exact Hlt].
    apply Qnot_lt_le. intros Hgt.
    apply (stretched_gap_not_above aL (M - d) R HL); [lra | exact HR0 | exact Hlt]. }
  assert (Hright : prune_right dist_double (mkPruner aL 1 aR 1) d R M
                   <-> (R < double_rnd (aR * double_rnd (d - M)))%Q).
  { unfold prune_right, right_bound.
    cbn [alpha_right_ exp_right_ rnd_dist EfficientPow rounded_pow Pos.to_nat
         Pos.iter_op Nat.sub].
    split; [tauto|]. intros Hlt. split; [|exact Hlt].
    apply Qnot_lt_le. intros Hgt.
    apply (stretched_gap_not_above aR (d - M) R HR); [lra | exact HR0 | exact Hlt]. }
  destruct (Classify dist_double (mkPruner aL 1 aR 1) d R M) eqn:E.
  - apply OracleFacts.Classify_left_iff in E. apply TriangIneq_left_iff.
    cbn [TriangIneq.alpha_left_]. exact (proj1 Hleft E).
  - apply OracleFacts.Classify_right_iff in E as [E1 E2].
    apply TriangIneq_right_iff.
    cbn [TriangIneq.alpha_left_ TriangIneq.alpha_right_].
    rewrite <- Hleft, <- Hright. auto.
  - apply OracleFacts.Classify_both_iff in E as [E1 E2].
    apply TriangIneq_both_iff.
    cbn [TriangIneq.alpha_left_ TriangIneq.alpha_right_].
    rewrite <- Hleft, <- Hright. auto.
Qed.

Lemma TriangIneq_is_polynomial_of_degree_one_witness :
  TriangIneq.Classify (TriangIneq.mkTriangIneq (1 # 2) 2) 1 (1 # 2) 3
  = Classify dist_double (mkPruner (1 # 2) 1 2 1) 1 (1 # 2) 3.
Proof.
  apply (proj1 TriangIneq_is_polynomial_of_degree_one);
    unfold Qle; simpl; lia.
Defined.

(** X3.  The triangle-inequality oracle is monotone in the radius: a Both
    answer stays Both when [MaxDist] grows. *)
Theorem TriangIneq_monotone_MaxDist o d M R1 R2 :
  (R1 <= R2)%Q ->
  TriangIneq.Classify o d R1 M = kVisitBoth ->
  TriangIneq.Classify o d R2 M = kVisitBoth.
Proof.
  intros Hle H1. apply TriangIneq_both_iff in H1 as [HL HR].
  apply TriangIneq_both_iff. split; intros Hlt.
  - apply HL. eapply Qle_lt_trans; eassumption.
  - apply HR. eapply Qle_lt_trans; eassumption.
Qed.

Lemma TriangIneq_monotone_MaxDist_witness :
  TriangIneq.Classify (TriangIneq.mkTriangIneq 1 1) 3 5 4 = kVisitBoth.
Proof.
  apply (TriangIneq_monotone_MaxDist (TriangIneq.mkTriangIneq 1 1) 3 4 2 5).
  - unfold Qle. simpl. lia.
  - vm_compute. reflexivity.
Defined.

(** X4.  At the median, with a non-negative radius, the triangle-inequality
    oracle visits both subtrees whatever its coefficients are. *)
Theorem TriangIneq_at_median o d R M :
  (d == M)%Q -> (0 <= R)%Q -> TriangIneq.Classify o d R M = kVisitBoth.
Proof.
  intros Hd HR. apply TriangIneq_both_iff. split; intros Hlt.
  - rewrite (stretched_zero_gap _ (M - d)) in Hlt by (rewrite Hd; ring). lra.
  - rewrite (stretched_zero_gap _ (d - M)) in Hlt by (rewrite Hd; ring). lra.
Qed.

Lemma TriangIneq_at_median_witness :
  TriangIneq.Classify (TriangIneq.mkTriangIneq (-7) 100) (6 # 2) 0 3
  = kVisitBoth.
Proof.
  apply TriangIneq_at_median; [reflexivity | unfold Qle; simpl; lia].
Defined.

(** X5.  Lowering the two coefficients of the polynomial pruner never
    prunes more: a Both answer stays Both. *)
Theorem Classify_monotone_alpha dt aL aR aL' aR' eL eR d R M :
  (aL' <= aL)%Q -> (aR' <= aR)%Q ->
  Classify dt (mkPruner aL eL aR eR) d R M = kVisitBoth ->
  Classify dt (mkPruner aL' eL aR' eR) d R M = kVisitBoth.
Proof.
  intros HL HR Hb. apply OracleFacts.Classify_both_iff in Hb as [H1 H2].
  apply OracleFacts.Classify_both_iff.
  unfold prune_left, prune_right, left_bound, right_bound in *.
  cbn [alpha_left_ exp_left_ alpha_right_ exp_right_] in *.
  split; intros [Hd Hlt].
  - apply H1. split; [exact Hd|]. eapply Qlt_le_trans; [exact Hlt|].
    apply double_rnd_le, Qmult_le_compat_r;
      [exact HL | now apply OracleFacts.pow_gap_nonneg].
  - apply H2. split; [exact Hd|]. eapply Qlt_le_trans; [exact Hlt|].
    apply double_rnd_le, Qmult_le_compat_r;
      [exact HR | now apply OracleFacts.pow_gap_nonneg].
Qed.

Lemma Classify_monotone_alpha_witness :
  Classify dist_float (mkPruner (1 # 2) 2 (1 # 4) 3) 1 4 3 = kVisitBoth.
Proof.
  apply (Classify_monotone_alpha dist_float 1 1 (1 # 2) (1 # 4) 2 3 1 4 3).
  - unfold Qle. simpl. lia.
  - unfold Qle. simpl. lia.
  - vm_compute. reflexivity.
Defined.

(** X6.  With non-positive coefficients the polynomial pruner never prunes
    at a non-negative radius: every node is answered Both. *)
Theorem Classify_no_pruning dt p d R M :
  (alpha_left_ p <= 0)%Q -> (alpha_right_ p <= 0)%Q -> (0 <= R)%Q ->
  Classify dt p d R M = kVisitBoth.
Proof.
  intros HL HR HR0. apply OracleFacts.Classify_both_iff.
  unfold prune_left, prune_right, left_bound, right_bound.
  split; intros [Hd Hlt].
  - pose proof (OracleFacts.pow_gap_nonneg dt M d (exp_left_ p) Hd) as Hp.
    assert (H : (alpha_left_ p
                 * EfficientPow (rnd_dist dt (M - d)) (exp_left_ p) <= 0)%Q)
      by nra.
    apply double_rnd_nonpos in H. lra.
  - pose proof (OracleFacts.pow_gap_nonneg dt d M (exp_right_ p) Hd) as Hp.
    assert (H : (alpha_right_ p
                 * EfficientPow (rnd_dist dt (d - M)) (exp_right_ p) <= 0)%Q)
      by nra.
    apply double_rnd_nonpos in H. lra.
Qed.

Lemma Classify_no_pruning_witness :
  Classify dist_float (mkPruner 0 2 (-1) 3) 1 0 30 = kVisitBoth.
Proof.
  apply Classify_no_pruning; unfold Qle; simpl; lia.
Defined.

(** X7.  The sampling oracle never stops at its [CHECK]; it answers Both at
    the median, Left-only only for [dist < M] and Right-only only for
    [dist > M]. *)
Theorem Sampling_keeps_query_side o d R M :
  (forall what, SamplingOracle.Classify o d R M <> CheckFailed what) /\
  ((d == M)%Q -> SamplingOracle.Classify o d R M = Done kVisitBoth) /\
  (SamplingOracle.Classify o d R M = Done kVisitLeft -> (d < M)%Q) /\
  (SamplingOracle.Classify o d R M = Done kVisitRight -> (M < d)%Q).
Proof.
  unfold SamplingOracle.Classify.
  destruct (Qeq_bool d M) eqn:Eq.
  - rewrite orb_true_r. repeat split; try discriminate; auto.
  - rewrite orb_false_r.
    assert (Hne : ~ (d == M)%Q).
    { intros H. apply Qeq_bool_iff in H. congruence. }
    destruct (SamplingOracle.NotEnoughData_ o);
      [repeat split; try discriminate; auto|].
    destruct (SamplingOracle.QuantilePivotDists o !! 0%nat) as [q0|];
      [|repeat split; try discriminate; intros H; contradiction].
    destruct (Qlt_bool d q0);
      [repeat split; try discriminate; intros H; contradiction|].
    cbv zeta. destruct (_ =? _)%nat;
      [repeat split; try discriminate; intros H; contradiction|].
    destruct (_ <=? _)%nat;
      [repeat split; try discriminate; intros H; contradiction|].
    destruct (SamplingOracle.QuantileMaxPseudoQueryDists o !! _) as [r|];
      [|repeat split; try discriminate; intros H; contradiction].
    destruct (Qle_bool r R);
      [repeat split; try discriminate; intros H; contradiction|].
    destruct (Qlt_bool d M) eqn:Elt.
    + repeat split; try discriminate; try (intros H; contradiction).
      intros _. now apply Qlt_bool_iff.
    + repeat split; try discriminate; try (intros H; contradiction).
      intros _. apply Qlt_bool_false_iff in Elt.
      apply Qle_lt_or_eq in Elt as [Hlt|Heq]; [exact Hlt|].
      exfalso. apply Hne. now symmetry.
Qed.

(** X8.  The sampling oracle is monotone in the radius: a Both answer stays
    Both when [MaxDist] grows. *)
Theorem Sampling_monotone_MaxDist o d M R1 R2 :
  (R1 <= R2)%Q ->
  SamplingOracle.Classify o d R1 M = Done kVisitBoth ->
  SamplingOracle.Classify o d R2 M = Done kVisitBoth.
Proof.
  intros Hle. unfold SamplingOracle.Classify.
  destruct (SamplingOracle.NotEnoughData_ o || Qeq_bool d M) eqn:E0;
    [reflexivity|].
  apply orb_false_iff in E0 as [_ Eq]. rewrite Eq.
  destruct (SamplingOracle.QuantilePivotDists o !! 0%nat) as [q0|];
    [|discriminate].
  destruct (Qlt_bool d q0); [reflexivity|].
  cbv zeta. destruct (_ =? _)%nat; [reflexivity|].
  destruct (_ <=? _)%nat; [reflexivity|].
  destruct (SamplingOracle.QuantileMaxPseudoQueryDists o !! _) as [r|];
    [|discriminate].
  destruct (Qle_bool r R1) eqn:E1.
  - intros _. apply Qle_bool_iff in E1.
    assert (E2 : Qle_bool r R2 = true)
      by (apply Qle_bool_iff; eapply Qle_trans; eassumption).
    now rewrite E2.
  - destruct (Qlt_bool d M); discriminate.
Qed.

Lemma Sampling_monotone_MaxDist_witness :
  SamplingOracle.Classify
    (SamplingOracle.mkSamplingOracle false [1; 2; 4]%Q [3; 5; 9]%Q) 2 7 6
  = Done kVisitBoth.
Proof.
  apply (Sampling_monotone_MaxDist _ 2 6 5 7).
  - unfold Qle. simpl. lia.
  - reflexivity.
Defined.

(** X9.  The sampling oracle reads [QuantilePivotDists[0]] past the end of
    the vector exactly when it is not flagged as short of data, the query is
    not at the median and the vector of quantiles is empty; its other read
    is always inside its vector. *)
Theorem Sampling_out_of_range_iff o d R M :
  SamplingOracle.Classify o d R M = OutOfRange
  <-> SamplingOracle.NotEnoughData_ o = false /\
      ~ (d == M)%Q /\
      SamplingOracle.QuantilePivotDists o = [].
Proof.
  unfold SamplingOracle.Classify.
  destruct (Qeq_bool d M) eqn:Eq.
  - rewrite orb_true_r. split; [discriminate|].
    intros (_ & Hne & _). apply Qeq_bool_iff in Eq. contradiction.
  - rewrite orb_false_r.
    assert (Hne : ~ (d == M)%Q).
    { intros H. apply Qeq_bool_iff in H. congruence. }
    destruct (SamplingOracle.NotEnoughData_ o);
      [split; [discriminate | intros (H & _); discriminate]|].
    destruct (SamplingOracle.QuantilePivotDists o) as [|q0 qs] eqn:Ev.
    + split; auto.
    + cbn [lookup list_lookup].
      assert (Hno : ~ (false = false /\ ~ (d == M)%Q /\ q0 :: qs = []))
        by (intros (_ & _ & H); discriminate).
      destruct (Qlt_bool d q0); [split; [discriminate | contradiction]|].
      cbv zeta. destruct (_ =? _)%nat; [split; [discriminate | contradiction]|].
      destruct (_ <=? _)%nat eqn:El; [split; [discriminate | contradiction]|].
      apply Nat.leb_gt in El.
      destruct (SamplingOracle.QuantileMaxPseudoQueryDists o !! _) as [r|] eqn:Er.
      * destruct (Qle_bool r R); [split; [discriminate | contradiction]|].
        destruct (Qlt_bool d M); split; (discriminate || contradiction).
      * apply lookup_ge_None in Er. lia.
Qed.

Lemma Sampling_keeps_query_side_witness :
  SamplingOracle.Classify
    (SamplingOracle.mkSamplingOracle false [1; 2; 4]%Q [3; 5; 9]%Q) 2 1 6
  = Done kVisitLeft /\ (2 < 6)%Q.
Proof.
  split; [reflexivity|].
  apply (proj1 (proj2 (proj2 (Sampling_keeps_query_side
    (SamplingOracle.mkSamplingOracle false [1; 2; 4]%Q [3; 5; 9]%Q) 2 1 6)))).
  reflexivity.
Defined.

Lemma Sampling_out_of_range_iff_witness :
  SamplingOracle.Classify (SamplingOracle.mkSamplingOracle false [] []) 1 0 2
  = OutOfRange.
Proof.
  apply (proj2 (Sampling_out_of_range_iff
                  (SamplingOracle.mkSamplingOracle false [] []) 1 0 2)).
  split; [reflexivity|]. split; [|reflexivity].
  intros H. unfold Qeq in H. simpl in H. lia.
Defined.

End OracleMore.

(** ** Candidate counts, range search and query-time parameters *)

Module WrapperMore.
Import Wrappers Spec RoundingFacts.

(** The integer part of a fraction of a size, the size and the product
    rounded by a monotone rounding that leaves 0 and the size as they
    are. *)
Lemma rounded_fraction_bounds (rnd : Q -> Q) (frac : Q) (N : Z) :
  (forall x y, (x <= y)%Q -> (rnd x <= rnd y)%Q) ->
  (rnd 0 == 0)%Q ->
  (rnd (inject_Z N) == inject_Z N)%Q ->
  (forall x, (x == inject_Z N)%Q -> (rnd x == inject_Z N)%Q) ->
  (0 <= frac)%Q -> (frac <= 1)%Q -> 0 <= N ->
  0 <= Qtrunc (rnd (frac * rnd (inject_Z N))%Q) <= N.
Proof.
  intros Hmono H0 HN1 HN2 Hf0 Hf1 HN.
  pose proof (WrapperFacts.inject_Z_nonneg N HN) as HNq.
  set (y := rnd (inject_Z N)) in *.
  assert (Hp0 : (0 <= frac * y)%Q) by nra.
  assert (Hp1 : (frac * y <= y)%Q) by nra.
  assert (Hr0 : (0 <= rnd (frac * y))%Q).
  { rewrite <- H0. now apply Hmono. }
  assert (Hr1 : (rnd (frac * y) <= inject_Z N)%Q).
  { rewrite <- (HN2 y HN1). now apply Hmono. }
  rewrite Qtrunc_floor by exact Hr0. split.
  - change 0 with (Qfloor 0). now apply Qfloor_resp_le.
  - apply Z.le_trans with (Qfloor (inject_Z N));
      [now apply Qfloor_resp_le | rewrite Qfloor_Z; lia].
Qed.

Lemma float_fraction_bounds (frac : Q) (N : Z) :
  (0 <= frac)%Q -> (frac <= 1)%Q -> 0 <= N <= 2 ^ 24 ->
  0 <= Qtrunc (float_rnd (frac * float_rnd (inject_Z N))) <= N.
Proof.
  intros Hf0 Hf1 HN. apply rounded_fraction_bounds; try assumption; try lia.
  - apply float_rnd_le.
  - reflexivity.
  - now apply float_rnd_size.
  - intros x Hx. rewrite (rnd_dist_comp dist_float x _ Hx).
    now apply float_rnd_size.
Qed.

Lemma double_fraction_bounds (frac : Q) (N : Z) :
  (0 <= frac)%Q -> (frac <= 1)%Q -> 0 <= N <= 2 ^ 53 ->
  0 <= Qtrunc (double_rnd (frac * double_rnd (inject_Z N))) <= N.
Proof.
  intros Hf0 Hf1 HN. apply rounded_fraction_bounds; try assumption; try lia.
  - apply double_rnd_le.
  - reflexivity.
  - now apply double_rnd_size.
  - intros x Hx. rewrite (double_rnd_comp x _ Hx).
    now apply double_rnd_size.
Qed.

(** X10.  For a fraction in [0,1] over a dataset of at most 2^24 objects
    (whose size is a [float] value) the count of the projection wrapper
    lies between 0 and the size of the dataset, and so does the count of
    the permutation prefix index, for any size.  Above 2^24 the size
    converted to [float] can exceed the size: with the fraction 1 over
    16777219 objects the projection wrapper asks for 16777220. *)
Theorem computeDbScan_within_dataset (N K : Z) :
  0 <= N ->
  (forall st,
     (0 <= ProjectionVPTree.db_scan_frac_ st)%Q ->
     (ProjectionVPTree.db_scan_frac_ st <= 1)%Q ->
     N <= 2 ^ 24 ->
     0 <= ProjectionVPTree.computeDbScan st N K <= N) /\
  (forall st,
     0 <= PermutationPrefixIndex.min_candidate_ st ->
     0 <= PermutationPrefixIndex.computeDbScan st N K <= N) /\
  ProjectionVPTree.computeDbScan (ProjectionVPTree.mkState 0 1 true)
    16777219 K = 16777220.
Proof.
  intros HN.
  assert (Hmod : 0 <= SIZE_MODULUS) by (unfold SIZE_MODULUS; lia).
  split; [|split]; [intros st | intros st |].
  - intros H0 H1 Hsz. unfold ProjectionVPTree.computeDbScan.
    destruct (negb _).
    + pose proof (Z.mod_pos_bound (K * ProjectionVPTree.knn_amp_ st)
                    SIZE_MODULUS ltac:(unfold SIZE_MODULUS; lia)). lia.
    + apply float_fraction_bounds; [assumption | assumption | lia].
  - intros Hmin. unfold PermutationPrefixIndex.computeDbScan.
    destruct (negb _).
    + pose proof (Z.mod_pos_bound (K * PermutationPrefixIndex.knn_amp_ st)
                    SIZE_MODULUS ltac:(unfold SIZE_MODULUS; lia)). lia.
    + lia.
  - vm_compute. reflexivity.
Qed.

Lemma computeDbScan_within_dataset_witness :
  0 <= ProjectionVPTree.computeDbScan
         (ProjectionVPTree.mkState 0 (1 # 4) true) 10 4 <= 10.
Proof.
  apply (proj1 (computeDbScan_within_dataset 10 4 ltac:(lia))).
  - unfold Qle. simpl. lia.
  - unfold Qle. simpl. lia.
  - lia.
Defined.

(** X11.  The three permutation wrappers scan at least one candidate; for a
    fraction in [0,1] over a non-empty dataset they scan at most the whole
    dataset when its size is a value of the type the product is computed
    in: up to 2^53 objects for the binarized permutation wrapper ([double])
    and up to 2^24 objects for the other two ([float]). *)
Theorem perm_db_scan_bounds (frac : Q) (N : Z) :
  (0 <= frac)%Q -> (frac <= 1)%Q -> 1 <= N ->
  (1 <= PermBinVPTree.db_scan_qty frac N /\
   1 <= PermutationVPTree.ComputeDbScanQty frac N /\
   1 <= PermutationIndexIncremental.ComputeDbScan frac N) /\
  (N <= 2 ^ 53 -> PermBinVPTree.db_scan_qty frac N <= N) /\
  (N <= 2 ^ 24 ->
   PermutationVPTree.ComputeDbScanQty frac N <= N /\
   PermutationIndexIncremental.ComputeDbScan frac N <= N).
Proof.
  intros H0 H1 HN.
  unfold PermBinVPTree.db_scan_qty, PermutationVPTree.ComputeDbScanQty,
    PermutationIndexIncremental.ComputeDbScan.
  split; [lia|]. split.
  - intros Hsz.
    pose proof (double_fraction_bounds frac N H0 H1 ltac:(lia)). lia.
  - intros Hsz.
    pose proof (float_fraction_bounds frac N H0 H1 ltac:(lia)). lia.
Qed.

Lemma perm_db_scan_bounds_witness :
  1 <= PermutationVPTree.ComputeDbScanQty (1 # 16) 1000 /\
  PermutationVPTree.ComputeDbScanQty (1 # 16) 1000 <= 1000.
Proof.
  pose proof (perm_db_scan_bounds (1 # 16) 1000
                ltac:(unfold Qle; simpl; lia) ltac:(unfold Qle; simpl; lia)
                ltac:(lia)) as (H1 & _ & H3).
  split; [apply H1 | apply H3; lia].
Defined.

Section RangeSearchFacts.
Context {P Qry : Type}.
Variable compProj : option Qry -> Object P -> list Q.
Variable VPTreeSearch :
  list (Object (list Q)) -> Object (list Q) -> Z -> list (Object (list Q)).
Variable QueryObject : Qry -> Object P.

#[local] Abbreviation Search_range :=
  (RangeSearch.ProjectionVPTree_Search compProj VPTreeSearch QueryObject).

(** For a range query the count is computed with [K = 0], which makes it 0
    as soon as [knn_amp_] is set. *)
Lemma computeDbScan_K0 (st : ProjectionVPTree.t) (N : Z) :
  0 <= N -> ProjectionVPTree.knn_amp_ st <> 0 ->
  ProjectionVPTree.computeDbScan st N 0 = 0.
Proof.
  intros HN Hamp. rewrite WrapperFacts.computeDbScan_amp by exact Hamp.
  rewrite Z.mul_0_l, Z.mod_0_l by (unfold SIZE_MODULUS; lia). lia.
Qed.

(** X12.  A range search on the projection wrapper throws whenever
    [knnAmp] is in force (non-zero), whatever the query and the data; it
    runs exactly when [knn_amp_] is 0, [db_scan_frac_] lies in [0,1] and
    the integer part of db_scan_frac_ * N, computed in [float], is at
    least 1. *)
Theorem range_search_needs_dbScanFrac (st : ProjectionVPTree.t)
    (data_ : list (Object P)) (projData_ : list (Object (list Q)))
    (query : Qry) :
  (ProjectionVPTree.knn_amp_ st <> 0 ->
   throws (Search_range st data_ projData_ query) = true) /\
  (throws (Search_range st data_ projData_ query) = false
   <-> ProjectionVPTree.knn_amp_ st = 0 /\
       (0 <= ProjectionVPTree.db_scan_frac_ st)%Q /\
       (ProjectionVPTree.db_scan_frac_ st <= 1)%Q /\
       1 <= Qfloor (float_rnd
                      (ProjectionVPTree.db_scan_frac_ st
                       * float_rnd (inject_Z (Z.of_nat (length data_)))))).
Proof.
  assert (HN : 0 <= Z.of_nat (length data_)) by lia.
  unfold RangeSearch.ProjectionVPTree_Search. cbv zeta.
  destruct (Qlt_bool (ProjectionVPTree.db_scan_frac_ st) 0) eqn:E0.
  { apply Qlt_bool_iff in E0. split; [reflexivity|].
    split; [discriminate|]. intros (_ & H & _). lra. }
  destruct (Qlt_bool 1 (ProjectionVPTree.db_scan_frac_ st)) eqn:E1.
  { apply Qlt_bool_iff in E1. split; [reflexivity|].
    split; [discriminate|]. intros (_ & _ & H & _). lra. }
  apply Qlt_bool_false_iff in E0, E1. cbn [orb].
  destruct (Z.eq_dec (ProjectionVPTree.knn_amp_ st) 0) as [Hz|Hnz].
  - rewrite WrapperFacts.computeDbScan_frac by exact Hz.
    pose proof (WrapperFacts.float_product_nonneg _ _ E0 HN) as Hnn.
    rewrite Qtrunc_floor by exact Hnn.
    apply Qfloor_resp_le in Hnn. change (Qfloor 0) with 0 in Hnn.
    split; [contradiction|].
    set (c := Qfloor (float_rnd
                        (ProjectionVPTree.db_scan_frac_ st
                         * float_rnd (inject_Z (Z.of_nat (length data_))))))
      in *.
    destruct (Z.eqb_spec c 0) as [E|E]; cbn [throws].
    + split; [discriminate|]. intros (_ & _ & _ & H). lia.
    + split; [|reflexivity]. intros _. repeat split; auto. lia.
  - rewrite computeDbScan_K0 by assumption. cbn [Z.eqb throws].
    split; [reflexivity|]. split; [discriminate|]. intros (H & _). contradiction.
Qed.

(** X13.  A range search that runs on the surrogate objects built by the
    constructor re-ranks, for every surrogate it pops, the object the
    surrogate was projected from. *)
Theorem range_search_reranks_sources (st : ProjectionVPTree.t)
    (data : list (Object P)) (query : Qry)
    (res : list (option (Object P))) :
  (forall q k s,
     s ∈ VPTreeSearch (ProjectionVPTree.build_projData compProj data) q k ->
     s ∈ ProjectionVPTree.build_projData compProj data) ->
  Search_range st data (ProjectionVPTree.build_projData compProj data) query
    = Ret res ->
  Forall2 (reranked_as data (projected_from compProj))
    (VPTreeSearch (ProjectionVPTree.build_projData compProj data)
       (ProjectionVPTree.ProjectOneVect compProj 0 (Some query)
          (QueryObject query))
       (ProjectionVPTree.computeDbScan st (Z.of_nat (length data)) 0))
    res.
Proof.
  intros Hsub Hs. unfold RangeSearch.ProjectionVPTree_Search in Hs.
  cbv zeta in Hs.
  destruct (_ || _); [discriminate|].
  destruct (_ =? 0); [discriminate|]. injection Hs as <-.
  apply RerankFacts.rerank_Forall2 with
    (surrogates := ProjectionVPTree.build_projData compProj data).
  - intros i s Hi.
    destruct (RerankFacts.build_projData_lookup compProj data i s Hi)
      as (H1 & _ & H3). auto.
  - intros s Hin. exact (Hsub _ _ _ Hin).
Qed.
End RangeSearchFacts.

Lemma range_search_needs_dbScanFrac_witness :
  throws (RangeSearch.ProjectionVPTree_Search
            (fun (_ : option nat) (o : Object nat) => [inject_Z (Z.of_nat (payload o))])
            (fun pd _ k => take (Z.to_nat k) pd)
            (fun q : nat => mkObject 0 (-1) q)
            (ProjectionVPTree.mkState 5 0 true)
            [mkObject 0 (-1) 10%nat; mkObject 1 (-1) 20%nat] [] 7%nat) = true.
Proof.
  apply (proj1 (range_search_needs_dbScanFrac _ _ _ _ _ _ _)).
  simpl. lia.
Defined.

Lemma range_search_reranks_sources_witness :
  Forall2 (reranked_as [mkObject 5 (-1) 10%nat; mkObject 8 (-1) 20%nat]
             (projected_from
                (fun (_ : option nat) o => [inject_Z (Z.of_nat (payload o))])))
    [mkObject 0 (-1) [10%Q]] [Some (mkObject 5 (-1) 10%nat)].
Proof.
  apply (range_search_reranks_sources
           (fun (_ : option nat) o => [inject_Z (Z.of_nat (payload o))])
           (fun pd _ k => take (Z.to_nat k) pd)
           (fun q : nat => mkObject 0 (-1) q)
           (ProjectionVPTree.mkState 0 (1 # 2) true)
           [mkObject 5 (-1) 10%nat; mkObject 8 (-1) 20%nat] 7%nat).
  - intros q k s Hs. exact (subseteq_take _ _ _ Hs).
  - reflexivity.
Defined.

Section QueryTimeParamsMore.
Variable str_to_size_t : string -> option Z.
Variable str_to_float : string -> option Q.
Variable VPTree_SetQueryTimeParams : gmap string string -> option string.

#[local] Abbreviation SetParams :=
  (ProjectionVPTree.SetQueryTimeParamsInternal str_to_size_t str_to_float
     VPTree_SetQueryTimeParams).

(** What a successful call leaves in the two fields, by the names present
    among the parameters. *)
Lemma SetParams_success (pmgr : gmap string string)
    (st st' : ProjectionVPTree.t) :
  SetParams pmgr st = Ret st' ->
  ProjectionVPTree.VPTreeIndex_ st' = ProjectionVPTree.VPTreeIndex_ st /\
  match pmgr !! "dbScanFrac", pmgr !! "knnAmp" with
  | Some _, Some _ => False
  | Some sf, None =>
      str_to_float sf = Some (ProjectionVPTree.db_scan_frac_ st') /\
      ProjectionVPTree.knn_amp_ st' = 0
  | None, Some sa =>
      str_to_size_t sa = Some (ProjectionVPTree.knn_amp_ st') /\
      ProjectionVPTree.db_scan_frac_ st' = 0%Q
  | None, None =>
      ProjectionVPTree.knn_amp_ st' = 0 /\
      ProjectionVPTree.db_scan_frac_ st' = 0%Q
  end.
Proof.
  unfold ProjectionVPTree.SetQueryTimeParamsInternal,
    ProjectionVPTree.GetParamOptional, ProjectionVPTree.hasParam.
  destruct (ProjectionVPTree.VPTreeIndex_ st) eqn:Ei;
    [destruct (VPTree_SetQueryTimeParams pmgr); [discriminate|] |];
    cbn [exn_bind];
    destruct (pmgr !! "dbScanFrac") as [sf|] eqn:Ef;
    destruct (pmgr !! "knnAmp") as [sa|] eqn:Ea;
    cbn; try discriminate;
    repeat match goal with
           | |- context [str_to_float ?x] => destruct (str_to_float x)
           | |- context [str_to_size_t ?x] => destruct (str_to_size_t x)
           end;
    cbn; try discriminate; intros [= <-]; cbn; rewrite ?Ei; auto.
Qed.

(** X14.  A successful call never leaves both [knn_amp_] and
    [db_scan_frac_] set: a parameter that is absent is reset to 0, and the
    two are never present together. *)
Theorem SetQueryTimeParams_leaves_one (pmgr : gmap string string)
    (st st' : ProjectionVPTree.t) :
  SetParams pmgr st = Ret st' ->
  (pmgr !! "knnAmp" = None -> ProjectionVPTree.knn_amp_ st' = 0) /\
  (pmgr !! "dbScanFrac" = None -> ProjectionVPTree.db_scan_frac_ st' = 0%Q) /\
  (ProjectionVPTree.knn_amp_ st' = 0 \/
   ProjectionVPTree.db_scan_frac_ st' = 0%Q).
Proof.
  intros Hs. apply SetParams_success in Hs as [_ Hs].
  destruct (pmgr !! "dbScanFrac"), (pmgr !! "knnAmp");
    try contradiction; destruct Hs as [H1 H2];
    repeat split; try discriminate; auto.
Qed.

(** X15.  The outcome of setting the query-time parameters does not depend
    on the previous values of [knn_amp_] and [db_scan_frac_]; hence setting
    the same parameters again changes nothing. *)
Theorem SetQueryTimeParams_forgets_previous (pmgr : gmap string string)
    (st : ProjectionVPTree.t) :
  (forall st',
     ProjectionVPTree.VPTreeIndex_ st' = ProjectionVPTree.VPTreeIndex_ st ->
     SetParams pmgr st' = SetParams pmgr st) /\
  (forall st1, SetParams pmgr st = Ret st1 -> SetParams pmgr st1 = Ret st1).
Proof.
  assert (Hindep : forall st',
    ProjectionVPTree.VPTreeIndex_ st' = ProjectionVPTree.VPTreeIndex_ st ->
    SetParams pmgr st' = SetParams pmgr st).
  { intros st' Hidx.
    unfold ProjectionVPTree.SetQueryTimeParamsInternal,
      ProjectionVPTree.GetParamOptional, ProjectionVPTree.hasParam.
    rewrite Hidx.
    destruct (ProjectionVPTree.VPTreeIndex_ st);
      [destruct (VPTree_SetQueryTimeParams pmgr); [reflexivity|] |];
      cbn [exn_bind];
      destruct (pmgr !! "dbScanFrac") as [sf|];
      destruct (pmgr !! "knnAmp") as [sa|];
      cbn; rewrite ?Hidx; reflexivity. }
  split; [exact Hindep|].
  intros st1 Hs. rewrite <- Hs. apply Hindep.
  now apply SetParams_success in Hs as [Hidx _].
Qed.

(** X16.  When neither [dbScanFrac] nor [knnAmp] is given, a successful
    call resets both, after which every k-NN search and every range search
    of the wrapper throws. *)
Theorem SetQueryTimeParams_without_count (pmgr : gmap string string)
    (st st' : ProjectionVPTree.t) :
  pmgr !! "dbScanFrac" = None -> pmgr !! "knnAmp" = None ->
  SetParams pmgr st = Ret st' ->
  forall (P Qry : Type) compProj VPTreeSearch QueryObject
         (data_ : list (Object P)) projData_ (query : Qry) (K : Z),
    throws (ProjectionVPTree.Search_knn compProj VPTreeSearch QueryObject
              st' data_ projData_ query K) = true /\
    throws (RangeSearch.ProjectionVPTree_Search compProj VPTreeSearch
              QueryObject st' data_ projData_ query) = true.
Proof.
  intros Hf Ha Hs P Qry compProj VPTreeSearch QueryObject data_ projData_
    query K.
  apply SetParams_success in Hs as [_ Hs]. rewrite Hf, Ha in Hs.
  destruct Hs as [Hamp Hfrac].
  assert (Hc : forall K',
    ProjectionVPTree.computeDbScan st' (Z.of_nat (length data_)) K' = 0).
  { intros K'. rewrite WrapperFacts.computeDbScan_frac by exact Hamp.
    rewrite Hfrac. unfold Qtrunc. simpl. reflexivity. }
  split.
  - unfold ProjectionVPTree.Search_knn. cbv zeta. now rewrite Hc.
  - unfold RangeSearch.ProjectionVPTree_Search. cbv zeta.
    rewrite Hc, Hfrac. reflexivity.
Qed.
End QueryTimeParamsMore.

Lemma SetQueryTimeParams_leaves_one_witness :
  ProjectionVPTree.knn_amp_ (ProjectionVPTree.mkState 0 (1 # 10) false) = 0 \/
  ProjectionVPTree.db_scan_frac_ (ProjectionVPTree.mkState 0 (1 # 10) false)
  = 0%Q.
Proof.
  apply (SetQueryTimeParams_leaves_one
           (fun _ => Some 3) (fun _ => Some (1 # 10)) (fun _ => None)
           (<["dbScanFrac" := "0.1"]> ∅)
           (ProjectionVPTree.mkState 9 (1 # 2) false)).
  reflexivity.
Defined.

Lemma SetQueryTimeParams_forgets_previous_witness :
  ProjectionVPTree.SetQueryTimeParamsInternal
    (fun _ => Some 3) (fun _ => Some (1 # 10)) (fun _ => None)
    (<["knnAmp" := "3"]> ∅) (ProjectionVPTree.mkState 3 0 true)
  = Ret (ProjectionVPTree.mkState 3 0 true).
Proof.
  apply (proj2 (SetQueryTimeParams_forgets_previous
                  (fun _ => Some 3) (fun _ => Some (1 # 10)) (fun _ => None)
                  (<["knnAmp" := "3"]> ∅)
                  (ProjectionVPTree.mkState 0 (1 # 2) true))).
  reflexivity.
Defined.

Lemma SetQueryTimeParams_without_count_witness :
  throws (ProjectionVPTree.Search_knn
            (fun (_ : option nat) (o : Object nat) => [inject_Z (Z.of_nat (payload o))])
            (fun pd _ k => take (Z.to_nat k) pd)
            (fun q : nat => mkObject 0 (-1) q)
            (ProjectionVPTree.mkState 0 0 false)
            [mkObject 0 (-1) 10%nat] [] 7%nat 5) = true.
Proof.
  apply (SetQueryTimeParams_without_count
           (fun _ => Some 3) (fun _ => Some (1 # 10)) (fun _ => None)
           ∅ (ProjectionVPTree.mkState 4 (1 # 2) false)
           (ProjectionVPTree.mkState 0 0 false)); reflexivity.
Defined.

End WrapperMore.

(** ** Reading a dataset *)

Module ReadDatasetFacts.
Import Wrappers Notions.

Lemma lines_read_stop Max ln n :
  goes_on Max ln = false -> lines_read Max ln n = 0%nat.
Proof.
  unfold goes_on, lines_read. intros H. apply orb_false_iff in H as [H1 H2].
  rewrite H1. apply Z.ltb_ge in H2. lia.
Qed.

Lemma lines_read_step Max ln n :
  goes_on Max ln = true ->
  lines_read Max ln (S n) = S (lines_read Max (S ln) n).
Proof.
  unfold goes_on, lines_read. intros H.
  destruct (Z.eqb_spec Max 0); [reflexivity|].
  cbn [orb] in H. apply Z.ltb_lt in H. lia.
Qed.

Section Vector.
Context {V : Type}.
Variable ReadVec : string -> Z * list V.
Variable zero : V.

#[local] Abbreviation read_lines := (VectorSpace.read_lines ReadVec zero).
#[local] Abbreviation resize := (VectorSpace.resize zero).

(** The accumulated objects are only ever extended. *)
Lemma vector_read_lines_acc Max G lines : forall ln dim acc,
  read_lines Max G lines ln dim acc
  = match read_lines Max G lines ln dim [] with
    | ReadOk new => ReadOk (reverse acc ++ new)
    | ReadFatal m => ReadFatal m
    | ReadThrows w => ReadThrows w
    end.
Proof.
  induction lines as [|line rest IH]; intros ln dim acc.
  - cbn. now rewrite app_nil_r.
  - cbn [VectorSpace.read_lines].
    destruct (negb _); [cbn; now rewrite app_nil_r|].
    destruct (ReadVec line) as [label temp].
    destruct (_ && _); [reflexivity|].
    destruct (_ && _); [reflexivity|].
    rewrite IH. rewrite (IH _ _ [_]).
    destruct (VectorSpace.read_lines _ _ _ _ rest _ _ []); try reflexivity.
    rewrite reverse_cons, reverse_singleton, <- app_assoc. reflexivity.
Qed.

(** One turn of the loop, seen from a successful result. *)
Lemma vector_read_lines_cons Max G line rest ln dim ds :
  read_lines Max G (line :: rest) ln dim [] = ReadOk ds ->
  (goes_on Max ln = false /\ ds = []) \/
  (exists ds',
     goes_on Max ln = true /\
     (dim = 0%nat \/ dim = length (ReadVec line).2) /\
     (G = 0%nat \/ (G <= length (ReadVec line).2)%nat) /\
     ds = CreateObjFromVect ln (ReadVec line).1
            (resize (if (G =? 0)%nat then length (ReadVec line).2 else G)
                    (ReadVec line).2) :: ds' /\
     read_lines Max G rest (S ln)
       (if (dim =? 0)%nat then length (ReadVec line).2 else dim) []
     = ReadOk ds').
Proof.
  cbn [VectorSpace.read_lines]. fold (goes_on Max ln).
  destruct (goes_on Max ln); cbn [negb].
  2:{ intros [= <-]. left. auto. }
  destruct (ReadVec line) as [label temp]. cbn [fst snd].
  destruct (Nat.eqb_spec dim 0) as [Hd|Hd]; cbn [negb andb].
  - destruct (Nat.eqb_spec G 0) as [HG|HG]; cbn [negb andb].
    + rewrite vector_read_lines_acc.
      destruct (VectorSpace.read_lines _ _ _ _ rest _ _ []) as [| |ds'] eqn:E;
        try discriminate.
      intros [= <-]. right. exists ds'. repeat split; auto.
    + destruct (Nat.ltb_spec (length temp) G); [discriminate|].
      rewrite vector_read_lines_acc.
      destruct (VectorSpace.read_lines _ _ _ _ rest _ _ []) as [| |ds'] eqn:E;
        try discriminate.
      intros [= <-]. right. exists ds'. repeat split; auto.
  - destruct (Nat.eqb_spec dim (length temp)) as [He|He]; cbn [negb];
      [|discriminate].
    destruct (Nat.eqb_spec G 0) as [HG|HG]; cbn [negb andb].
    + rewrite vector_read_lines_acc.
      destruct (VectorSpace.read_lines _ _ _ _ rest _ _ []) as [| |ds'] eqn:E;
        try discriminate.
      intros [= <-]. right. exists ds'. rewrite <- He. repeat split; auto.
    + destruct (Nat.ltb_spec (length temp) G); [discriminate|].
      rewrite vector_read_lines_acc.
      destruct (VectorSpace.read_lines _ _ _ _ rest _ _ []) as [| |ds'] eqn:E;
        try discriminate.
      intros [= <-]. right. exists ds'. repeat split; auto.
Qed.
Lemma resize_within (n : nat) (temp : list V) :
  (n <= length temp)%nat -> resize n temp = take n temp.
Proof.
  intros Hn. unfold VectorSpace.resize.
  replace (n - length temp)%nat with 0%nat by lia. apply app_nil_r.
Qed.

Lemma resize_chosen (G : nat) (temp : list V) :
  G = 0%nat \/ (G <= length temp)%nat ->
  resize (if (G =? 0)%nat then length temp else G) temp
  = if (G =? 0)%nat then temp else take G temp.
Proof.
  intros HG. destruct (Nat.eqb_spec G 0) as [E|E].
  - rewrite resize_within by lia. now apply take_ge.
  - apply resize_within. lia.
Qed.

Lemma resize_all (temp : list V) : resize (length temp) temp = temp.
Proof. rewrite resize_within by lia. now apply take_ge. Qed.

(** Where each object of a successful result comes from. *)
Lemma vector_read_lines_objects Max G lines : forall ln dim ds,
  read_lines Max G lines ln dim [] = ReadOk ds ->
  length ds = lines_read Max ln (length lines) /\
  forall i o, ds !! i = Some o ->
    exists line, lines !! i = Some line /\
      id o = (ln + i)%nat /\ label o = (ReadVec line).1 /\
      (G = 0%nat \/ (G <= length (ReadVec line).2)%nat) /\
      payload o = if (G =? 0)%nat then (ReadVec line).2
                  else take G (ReadVec line).2.
Proof.
  induction lines as [|line rest IH]; intros ln dim ds Hr.
  - injection Hr as <-. split.
    + unfold lines_read. destruct (_ =? _); simpl; lia.
    + intros i o Hi. discriminate.
  - apply vector_read_lines_cons in Hr as [[Hstop ->]|(ds' & Hgo & Hdim & HG & -> & Hrest)].
    + split; [now rewrite lines_read_stop | intros i o Hi; discriminate].
    + destruct (IH _ _ _ Hrest) as [Hlen Hobj]. split.
      * cbn [length]. now rewrite lines_read_step, Hlen.
      * intros [|i] o Hi.
        -- injection Hi as <-. exists line. rewrite Nat.add_0_r.
           cbn [id label payload CreateObjFromVect lookup list_lookup].
           repeat split; auto. now apply resize_chosen.
        -- destruct (Hobj i o Hi) as (l & H1 & H2 & H3).
           exists l. replace (ln + S i)%nat with (S ln + i)%nat by lia. auto.
Qed.

(** Once the loop knows the dimension, every object has it. *)
Lemma vector_read_lines_known_dim Max lines : forall ln dim ds,
  dim <> 0%nat ->
  read_lines Max 0 lines ln dim [] = ReadOk ds ->
  forall i o, ds !! i = Some o -> length (payload o) = dim.
Proof.
  induction lines as [|line rest IH]; intros ln dim ds Hd Hr i o Hi.
  - injection Hr as <-. discriminate.
  - apply vector_read_lines_cons in Hr as [[Hstop ->]|(ds' & Hgo & Hdim & HG & -> & Hrest)];
      [discriminate|].
    destruct Hdim as [Hdim|Hdim]; [contradiction|].
    destruct (Nat.eqb_spec dim 0) as [E|_]; [contradiction|].
    destruct i as [|i].
    + injection Hi as <-. cbn [payload CreateObjFromVect Nat.eqb].
      rewrite resize_all. now symmetry.
    + exact (IH _ _ _ Hd Hrest i o Hi).
Qed.

Lemma vector_read_lines_same_dim Max lines : forall ln dim ds,
  read_lines Max 0 lines ln dim [] = ReadOk ds ->
  forall i j oi oj, (i <= j)%nat ->
    ds !! i = Some oi -> ds !! j = Some oj -> payload oi <> [] ->
    length (payload oj) = length (payload oi).
Proof.
  induction lines as [|line rest IH]; intros ln dim ds Hr i j oi oj Hij Hi Hj Hne.
  - injection Hr as <-. discriminate.
  - apply vector_read_lines_cons in Hr as [[Hstop ->]|(ds' & Hgo & Hdim & HG & -> & Hrest)];
      [discriminate|].
    destruct i as [|i].
    + injection Hi as <-. cbn [payload CreateObjFromVect Nat.eqb] in *.
      rewrite resize_all in *.
      destruct j as [|j].
      * injection Hj as <-. reflexivity.
      * assert (Hlen : length (ReadVec line).2 <> 0%nat)
          by (destruct ((ReadVec line).2); [contradiction | discriminate]).
        assert (Hd' : (if (dim =? 0)%nat then length (ReadVec line).2 else dim)
                      = length (ReadVec line).2).
        { destruct (Nat.eqb_spec dim 0); [reflexivity|].
          destruct Hdim; [contradiction | assumption]. }
        rewrite Hd' in Hrest.
        exact (vector_read_lines_known_dim _ _ _ _ _ Hlen Hrest j oj Hj).
    + destruct j as [|j]; [lia|].
      exact (IH _ _ _ Hrest i j oi oj ltac:(lia) Hi Hj Hne).
Qed.

(** X17.  [VectorSpace::ReadDataset] numbers the objects by line: when it
    returns, the [i]-th object carries the identifier [i], the label of the
    [i]-th line and the values of that line (its first [GetDimension]
    values when a dimension is requested). *)
Theorem vector_ReadDataset_objects (G : nat) (lines : list string)
    (FileName : string) (Max : Z) (ds : list (Object (list V))) :
  VectorSpace.ReadDataset ReadVec zero G (Some lines) FileName Max = ReadOk ds ->
  forall i o, ds !! i = Some o ->
    exists line, lines !! i = Some line /\
      id o = i /\ label o = (ReadVec line).1 /\
      payload o = if (G =? 0)%nat then (ReadVec line).2
                  else take G (ReadVec line).2.
Proof.
  unfold VectorSpace.ReadDataset. destruct (Max <? 0); [discriminate|].
  intros Hr i o Hi.
  destruct (vector_read_lines_objects _ _ _ _ _ _ Hr) as [_ Hobj].
  destruct (Hobj i o Hi) as (line & H1 & H2 & H3 & _ & H5).
  exists line. auto.
Qed.

(** X18.  [VectorSpace::ReadDataset] returns one object per line when
    [MaxNumObjects] is 0, and the first [MaxNumObjects] lines' objects (or
    all, if there are fewer lines) when it is positive; a negative
    [MaxNumObjects] makes the initial [reserve] throw, and a file that
    cannot be opened is fatal. *)
Theorem vector_ReadDataset_count (G : nat) (file : option (list string))
    (FileName : string) (Max : Z) :
  (Max < 0 ->
   VectorSpace.ReadDataset ReadVec zero G file FileName Max
   = ReadThrows "vector::reserve") /\
  (0 <= Max -> file = None ->
   VectorSpace.ReadDataset ReadVec zero G file FileName Max
   = ReadFatal ("Cannot open file: " +:+ FileName)) /\
  (forall lines ds,
     file = Some lines ->
     VectorSpace.ReadDataset ReadVec zero G file FileName Max = ReadOk ds ->
     length ds = if Max =? 0 then length lines
                 else Nat.min (length lines) (Z.to_nat Max)).
Proof.
  unfold VectorSpace.ReadDataset. split; [|split].
  - intros H. apply Z.ltb_lt in H. now rewrite H.
  - intros H ->. apply Z.ltb_ge in H. now rewrite H.
  - intros lines ds -> Hr. destruct (Max <? 0); [discriminate|].
    destruct (vector_read_lines_objects _ _ _ _ _ _ Hr) as [Hlen _].
    rewrite Hlen. unfold lines_read. now rewrite Z.sub_0_r.
Qed.

(** X19.  With a requested dimension [GetDimension > 0], a successful
    [VectorSpace::ReadDataset] has found at least that many values on every
    line it read, and every object has exactly that many. *)
Theorem vector_ReadDataset_requested_dim (G : nat) (lines : list string)
    (FileName : string) (Max : Z) (ds : list (Object (list V))) :
  G <> 0%nat ->
  VectorSpace.ReadDataset ReadVec zero G (Some lines) FileName Max = ReadOk ds ->
  forall i o, ds !! i = Some o ->
    length (payload o) = G /\
    exists line, lines !! i = Some line /\ (G <= length (ReadVec line).2)%nat.
Proof.
  unfold VectorSpace.ReadDataset. destruct (Max <? 0); [discriminate|].
  intros HG Hr i o Hi.
  destruct (vector_read_lines_objects _ _ _ _ _ _ Hr) as [_ Hobj].
  destruct (Hobj i o Hi) as (line & H1 & _ & _ & [H4|H4] & H5);
    [contradiction|].
  destruct (Nat.eqb_spec G 0); [contradiction|]. split.
  - rewrite H5, length_take. lia.
  - exists line. auto.
Qed.

(** X20.  Without a requested dimension, a successful
    [VectorSpace::ReadDataset] has objects of one length from the first
    non-empty one on: only leading objects may be empty. *)
Theorem vector_ReadDataset_same_dim (lines : list string)
    (FileName : string) (Max : Z) (ds : list (Object (list V))) :
  VectorSpace.ReadDataset ReadVec zero 0 (Some lines) FileName Max = ReadOk ds ->
  forall i j oi oj, (i <= j)%nat ->
    ds !! i = Some oi -> ds !! j = Some oj -> payload oi <> [] ->
    length (payload oj) = length (payload oi).
Proof.
  unfold VectorSpace.ReadDataset. destruct (Max <? 0); [discriminate|].
  apply vector_read_lines_same_dim.
Qed.
End Vector.

Lemma vector_ReadDataset_objects_witness :
  exists o,
    [mkObject 0 (-1) [97; 98]; mkObject 1 (-1) [99; 100]] !! 1%nat = Some o /\
    id o = 1%nat.
Proof.
  eexists. split; [reflexivity|].
  destruct (vector_ReadDataset_objects sample_ReadVec 0 0 ["ab"; "cd"]%string
              "data.txt" 0 _ eq_refl 1%nat _ eq_refl) as (line & _ & Hid & _).
  exact Hid.
Defined.

Lemma vector_ReadDataset_count_witness :
  length [mkObject 0 (-1) [97]; mkObject 1 (-1) [98]] = 2%nat.
Proof.
  apply (proj2 (proj2 (vector_ReadDataset_count sample_ReadVec 0 0
                         (Some ["a"; "b"; "c"]%string) "data.txt" 2))
           ["a"; "b"; "c"]%string); reflexivity.
Defined.

Lemma vector_ReadDataset_requested_dim_witness :
  length (payload (mkObject 0 (-1) [97; 98])) = 2%nat.
Proof.
  apply (vector_ReadDataset_requested_dim sample_ReadVec 0 2
           ["abc"; "def"]%string "data.txt" 0
           [mkObject 0 (-1) [97; 98]; mkObject 1 (-1) [100; 101]])
    with (i := 0%nat); [lia | vm_compute; reflexivity | reflexivity].
Defined.

Lemma vector_ReadDataset_same_dim_witness :
  length (payload (mkObject 2 (-1) [99; 100]))
  = length (payload (mkObject 1 (-1) [97; 98])).
Proof.
  apply (vector_ReadDataset_same_dim sample_ReadVec 0
           [""; "ab"; "cd"]%string "data.txt" 0
           [mkObject 0 (-1) []; mkObject 1 (-1) [97; 98];
            mkObject 2 (-1) [99; 100]])
    with (i := 1%nat) (j := 2%nat);
    [vm_compute; reflexivity | lia | reflexivity | reflexivity | discriminate].
Defined.

Section Bit.
Variable ReadVec : string -> option (Z * list Z).

#[local] Abbreviation bit_read_lines := (SpaceBitHamming.read_lines ReadVec).

Lemma bit_read_lines_acc Max lines : forall ln wordQty acc,
  bit_read_lines Max lines ln wordQty acc
  = match bit_read_lines Max lines ln wordQty [] with
    | ReadOk new => ReadOk (reverse acc ++ new)
    | ReadFatal m => ReadFatal m
    | ReadThrows w => ReadThrows w
    end.
Proof.
  induction lines as [|line rest IH]; intros ln wordQty acc.
  - cbn. now rewrite app_nil_r.
  - cbn [SpaceBitHamming.read_lines].
    destruct (negb _); [cbn; now rewrite app_nil_r|].
    destruct (ReadVec line) as [[label temp]|]; [|reflexivity].
    destruct (_ && _); [reflexivity|].
    rewrite IH. rewrite (IH _ _ [_]).
    destruct (SpaceBitHamming.read_lines _ _ rest _ _ []); try reflexivity.
    rewrite reverse_cons, reverse_singleton, <- app_assoc. reflexivity.
Qed.

Lemma bit_read_lines_objects Max lines : forall ln wordQty ds,
  bit_read_lines Max lines ln wordQty [] = ReadOk ds ->
  length ds = lines_read Max ln (length lines) /\
  forall i o, ds !! i = Some o ->
    exists line, lines !! i = Some line /\
      id o = (ln + i)%nat /\
      ReadVec line = Some (label o, payload o).
Proof.
  induction lines as [|line rest IH]; intros ln wordQty ds Hr.
  - injection Hr as <-. split.
    + unfold lines_read. destruct (_ =? _); simpl; lia.
    + intros i o Hi. discriminate.
  - cbn [SpaceBitHamming.read_lines] in Hr. fold (goes_on Max ln) in Hr.
    destruct (goes_on Max ln) eqn:Hgo; cbn [negb] in Hr.
    2:{ injection Hr as <-. split;
          [now rewrite lines_read_stop | intros i o Hi; discriminate]. }
    destruct (ReadVec line) as [[label temp]|] eqn:Ev; [|discriminate].
    destruct (_ && _); [discriminate|].
    rewrite bit_read_lines_acc in Hr.
    destruct (SpaceBitHamming.read_lines _ _ rest _ _ []) as [| |ds'] eqn:E;
      try discriminate.
    injection Hr as <-. destruct (IH _ _ _ E) as [Hlen Hobj]. split.
    + cbn [length app reverse]. rewrite lines_read_step by exact Hgo.
      cbn. now rewrite Hlen.
    + intros [|i] o Hi.
      * injection Hi as <-. exists line. rewrite Nat.add_0_r. auto.
      * destruct (Hobj i o Hi) as (l & H1 & H2 & H3).
        exists l. replace (ln + S i)%nat with (S ln + i)%nat by lia. auto.
Qed.

(** X21.  [SpaceBitHamming::ReadDataset] numbers the objects by line: when
    it returns, the [i]-th object carries the identifier [i] and the label
    and words read from the [i]-th line. *)
Theorem bit_ReadDataset_objects (lines : list string) (Max : Z)
    (ds : list (Object (list Z))) :
  SpaceBitHamming.ReadDataset ReadVec (Some lines) Max = ReadOk ds ->
  forall i o, ds !! i = Some o ->
    exists line, lines !! i = Some line /\
      id o = i /\ ReadVec line = Some (label o, payload o).
Proof.
  unfold SpaceBitHamming.ReadDataset. destruct (Max <? 0); [discriminate|].
  intros Hr i o Hi.
  destruct (bit_read_lines_objects _ _ _ _ _ Hr) as [_ Hobj].
  exact (Hobj i o Hi).
Qed.

(** X22.  [SpaceBitHamming::ReadDataset] does not test whether the file
    was opened: a file that cannot be opened yields an empty dataset and no
    error (unlike [VectorSpace::ReadDataset]); otherwise it returns one
    object per line, at most [MaxNumObjects] when that is positive. *)
Theorem bit_ReadDataset_count (Max : Z) :
  0 <= Max ->
  SpaceBitHamming.ReadDataset ReadVec None Max = ReadOk [] /\
  (forall lines ds,
     SpaceBitHamming.ReadDataset ReadVec (Some lines) Max = ReadOk ds ->
     length ds = if Max =? 0 then length lines
                 else Nat.min (length lines) (Z.to_nat Max)).
Proof.
  intros HM. apply Z.ltb_ge in HM. unfold SpaceBitHamming.ReadDataset.
  rewrite HM. split; [reflexivity|].
  intros lines ds Hr. cbn [default] in Hr.
  destruct (bit_read_lines_objects _ _ _ _ _ Hr) as [Hlen _].
  rewrite Hlen. unfold lines_read. now rewrite Z.sub_0_r.
Qed.
End Bit.

Lemma bit_ReadDataset_objects_witness :
  exists o,
    [mkObject 0 5 [1]; mkObject 1 5 [1]] !! 1%nat = Some o /\ id o = 1%nat.
Proof.
  eexists. split; [reflexivity|].
  destruct (bit_ReadDataset_objects (fun _ => Some (5, [1]))
              ["1"; "1"]%string 0 _ eq_refl 1%nat _ eq_refl)
    as (line & _ & Hid & _).
  exact Hid.
Defined.

Lemma bit_ReadDataset_count_witness :
  SpaceBitHamming.ReadDataset (fun _ => Some (5, [1])) None 10 = ReadOk [].
Proof.
  apply (proj1 (bit_ReadDataset_count (fun _ => Some (5, [1])) 10
                  ltac:(lia))).
Defined.

(** X23.  For a dataset returned by [VectorSpace::ReadDataset], the
    surrogate object that the projection wrapper builds for an object
    carries the identifier of that object. *)
Theorem surrogate_ids_of_read_dataset {V Qry : Type}
    (ReadVec : string -> Z * list V) (zero : V) (G : nat)
    (lines : list string) (FileName : string) (Max : Z)
    (compProj : option Qry -> Object (list V) -> list Q)
    (ds : list (Object (list V))) :
  VectorSpace.ReadDataset ReadVec zero G (Some lines) FileName Max = ReadOk ds ->
  forall i s,
    ProjectionVPTree.build_projData compProj ds !! i = Some s ->
    exists o, ds !! i = Some o /\ id s = id o.
Proof.
  intros Hr i s Hs.
  destruct (RerankFacts.build_projData_lookup compProj ds i s Hs)
    as (Hid & _ & o & Ho & _).
  exists o. split; [exact Ho|].
  unfold VectorSpace.ReadDataset in Hr. destruct (Max <? 0); [discriminate|].
  destruct (vector_read_lines_objects _ _ _ _ _ _ _ _ Hr) as [_ Hobj].
  destruct (Hobj i o Ho) as (_ & _ & Hio & _).
  rewrite Hid, Hio. reflexivity.
Qed.

Lemma surrogate_ids_of_read_dataset_witness :
  exists o,
    [mkObject 0 (-1) [97; 98]; mkObject 1 (-1) [99; 100]] !! 1%nat = Some o /\
    id (mkObject 1 (-1) [2%Q]) = id o.
Proof.
  apply (surrogate_ids_of_read_dataset sample_ReadVec 0 0 ["ab"; "cd"]%string
           "data.txt" 0
           (fun (_ : option nat) o => [inject_Z (Z.of_nat (length (payload o)))])
           [mkObject 0 (-1) [97; 98]; mkObject 1 (-1) [99; 100]])
    with (i := 1%nat); [vm_compute; reflexivity | reflexivity].
Defined.

End ReadDatasetFacts.

(** ** The tuning driver, continued *)

Module TuneMore.
Import Oracle Tune Spec Notions.

Section Loop.
Variable ToLower : string -> string.
Variable METH_VPTREE METH_PERM_BIN_VPTREE : string.
Variable GetOptimalAlphas : nat -> Call -> Local.
Variable normExp : nat -> Q.

#[local] Abbreviation iteration := (Tune.iteration GetOptimalAlphas normExp).
#[local] Abbreviation restarts := (Tune.restarts GetOptimalAlphas normExp).
#[local] Abbreviation tune_loop := (Tune.tune_loop GetOptimalAlphas normExp).
#[local] Abbreviation RunExper :=
  (Tune.RunExper ToLower METH_VPTREE METH_PERM_BIN_VPTREE
     GetOptimalAlphas normExp).
#[local] Abbreviation reaches_search :=
  (Spec.reaches_search ToLower METH_VPTREE METH_PERM_BIN_VPTREE).
#[local] Abbreviation best_dominates :=
  (Notions.best_dominates GetOptimalAlphas).
#[local] Abbreviation best_is_a_result :=
  (Notions.best_is_a_result GetOptimalAlphas).

(** An invariant of the body of the inner loop, for the exponents that the
    outer loop goes through, holds after the two loops. *)
Lemma tune_loop_invariant (Inv : LoopState -> Prop) (R lo hi : N) :
  Inv (mkLoop Best_init 0 []) ->
  (forall ce k st,
     ce ∈ counter_values lo (hi + 1 - lo) -> Inv st ->
     Inv (iteration ce k st)) ->
  Inv (tune_loop R lo hi).
Proof.
  intros H0 Hstep. unfold Tune.tune_loop.
  assert (Hall : forall ce, ce ∈ counter_values lo (hi + 1 - lo) ->
                            ce ∈ counter_values lo (hi + 1 - lo)) by auto.
  revert Hall H0. generalize (mkLoop Best_init 0 []).
  generalize (counter_values lo (hi + 1 - lo)) at 1 3.
  intros ces. induction ces as [|ce ces IH]; intros st Hall Hst; cbn [foldl].
  - exact Hst.
  - apply IH; [intros x Hx; apply Hall; now right|].
    unfold Tune.restarts.
    generalize (counter_values 0 ((1 + R) mod 2 ^ 32)). intros ks.
    revert st Hst. induction ks as [|k ks IHk]; intros st Hst; cbn [foldl].
    + exact Hst.
    + apply IHk. apply Hstep; [apply Hall; now left | exact Hst].
Qed.

Lemma length_concat_replicate {A : Type} (n : nat) (f : N -> A) (l : list N) :
  length (concat (map (fun ce => replicate n (f ce)) l)) = (length l * n)%nat.
Proof.
  induction l as [|x l IH]; [reflexivity|].
  cbn [map concat length]. rewrite length_app, length_replicate, IH. lia.
Qed.

(** X24.  The driver runs the nested grid search once per exponent of the
    range and per start: (MaxExp - MinExp + 1) * (1 + AddRestartQty) times
    in all. *)
Theorem number_of_searches (R lo hi : N) :
  (lo <= hi)%N -> (hi < UINT_MAX)%N -> (R < UINT_MAX)%N ->
  N.of_nat (length (calls (tune_loop R lo hi)))
  = ((hi - lo + 1) * (1 + R))%N.
Proof.
  intros Hle Hhi HR.
  assert (E : length (calls (tune_loop R lo hi))
              = length (searched_pairs (tune_loop R lo hi)))
    by (unfold searched_pairs; now rewrite length_map).
  rewrite E, TuneFacts.searched_pairs_tune_loop, length_concat_replicate.
  rewrite TuneFacts.length_counter_values.
  unfold UINT_MAX in HR. rewrite N.mod_small by lia.
  rewrite Nat2N.inj_mul, !N2Nat.id. f_equal. lia.
Qed.

Lemma iteration_calls ce k st :
  exists c, calls (iteration ce k st) = calls st ++ [c] /\
            c_exp_left c = ce /\ c_exp_right c = ce /\
            best (iteration ce k st)
            = if Qlt_bool (impr_best (best st))
                   (impr_best_loc (GetOptimalAlphas (length (calls st)) c))
              then best_of_call (GetOptimalAlphas (length (calls st)) c) c
              else best st.
Proof.
  unfold Tune.iteration. destruct (0 <? k)%N; eexists; cbn; repeat split.
Qed.

Lemma best_dominates_step ce k st :
  best_dominates st -> best_dominates (iteration ce k st).
Proof.
  intros [Hlow Hdom].
  destruct (iteration_calls ce k st) as (c & Hcalls & _ & _ & Hbest).
  unfold Notions.best_dominates. rewrite Hcalls, Hbest.
  destruct (Qlt_bool _ _) eqn:E.
  - apply Qlt_bool_iff in E. cbn [best_of_call impr_best]. split; [lra|].
    intros i c' Hi. apply lookup_app_Some in Hi as [Hi|[Hge Hi]].
    + specialize (Hdom i c' Hi). lra.
    + apply list_lookup_singleton_Some in Hi as [Hz <-].
      replace i with (length (calls st)) by lia. lra.
  - apply Qlt_bool_false_iff in E. split; [exact Hlow|].
    intros i c' Hi. apply lookup_app_Some in Hi as [Hi|[Hge Hi]].
    + exact (Hdom i c' Hi).
    + apply list_lookup_singleton_Some in Hi as [Hz <-].
      replace i with (length (calls st)) by lia. exact E.
Qed.

Lemma best_is_a_result_step ce k st :
  best_is_a_result st -> best_is_a_result (iteration ce k st).
Proof.
  intros Hres.
  destruct (iteration_calls ce k st) as (c & Hcalls & _ & _ & Hbest).
  unfold Notions.best_is_a_result. rewrite Hcalls, Hbest.
  destruct (Qlt_bool _ _).
  - right. exists (length (calls st)), c. split; [|reflexivity].
    rewrite lookup_app_r by lia. now rewrite Nat.sub_diag.
  - destruct Hres as [H0|(i & c' & Hi & Hb)]; [now left|].
    right. exists i, c'. split; [|exact Hb].
    apply lookup_app_Some. now left.
Qed.

(** X25.  After the search, the improvement kept as best is at least the
    improvement reported by each nested grid search (and at least the
    initial -1), and the best is the initial record or the result of one of
    the searches. *)
Theorem best_is_the_maximum (R lo hi : N) :
  (-1 <= impr_best (best (tune_loop R lo hi)))%Q /\
  (forall i c,
     calls (tune_loop R lo hi) !! i = Some c ->
     (impr_best_loc (GetOptimalAlphas i c)
      <= impr_best (best (tune_loop R lo hi)))%Q) /\
  (best (tune_loop R lo hi) = Best_init \/
   exists i c, calls (tune_loop R lo hi) !! i = Some c /\
     best (tune_loop R lo hi) = best_of_call (GetOptimalAlphas i c) c).
Proof.
  assert (H1 : best_dominates (tune_loop R lo hi)).
  { apply tune_loop_invariant.
    - split; [cbn; lra | intros i c Hi; discriminate].
    - intros ce k st _. apply best_dominates_step. }
  assert (H2 : best_is_a_result (tune_loop R lo hi)).
  { apply tune_loop_invariant.
    - now left.
    - intros ce k st _. apply best_is_a_result_step. }
  destruct H1 as [Hlow Hdom]. auto.
Qed.

Lemma best_exps_ok_step lo hi ce k st :
  ce ∈ counter_values lo (hi + 1 - lo) ->
  best_exps_ok lo hi st -> best_exps_ok lo hi (iteration ce k st).
Proof.
  intros Hce [Heq Hrange].
  destruct (iteration_calls ce k st) as (c & _ & HcL & HcR & Hbest).
  unfold best_exps_ok. rewrite Hbest. destruct (Qlt_bool _ _).
  - cbn [best_of_call exp_left exp_right]. rewrite HcL, HcR.
    split; [reflexivity|]. right.
    apply TuneFacts.elem_of_counter_values in Hce. lia.
  - auto.
Qed.

(** X26.  The two exponents kept with the best result are always equal;
    unless no search has improved on the initial record, they lie between
    [MinExp] and [MaxExp].  So the parameters written on success have
    [expLeft = expRight]. *)
Theorem best_exponents_equal (R lo hi : N) :
  exp_left (best (tune_loop R lo hi)) = exp_right (best (tune_loop R lo hi)) /\
  (best (tune_loop R lo hi) = Best_init \/
   (lo <= exp_left (best (tune_loop R lo hi)) <= hi)%N) /\
  bp_expLeft (bestParams (best (tune_loop R lo hi)))
  = bp_expRight (bestParams (best (tune_loop R lo hi))).
Proof.
  assert (H : best_exps_ok lo hi (tune_loop R lo hi)).
  { apply tune_loop_invariant.
    - split; [reflexivity | now left].
    - intros ce k st Hce. now apply best_exps_ok_step. }
  destruct H as [Heq Hr]. repeat split; auto.
Qed.
Lemma diagonal_pair_searched (R lo hi x : N) :
  (lo <= x <= hi)%N -> (R < UINT_MAX)%N ->
  (x, x) ∈ searched_pairs (tune_loop R lo hi).
Proof.
  intros Hx HR.
  rewrite TuneFacts.searched_pairs_tune_loop, list_elem_of_In, in_concat.
  exists (replicate (N.to_nat ((1 + R) mod 2 ^ 32)) (x, x)). split.
  - apply list_elem_of_In, list_elem_of_fmap. exists x.
    split; [reflexivity|]. apply TuneFacts.elem_of_counter_values. lia.
  - apply list_elem_of_In, elem_of_replicate. split; [reflexivity|].
    unfold UINT_MAX in HR. rewrite N.mod_small by lia. lia.
Qed.

(** X27.  The guard whose message is "minExp can't be zero!" tests
    [MaxExp]: it stops the run when [MaxExp] is 0, but a range that starts
    at 0 and ends above it passes, and the nested grid search is then run
    with both exponents 0. *)
Theorem zero_exponent_guard (a : Args) :
  (forall r,
     rangeAll a = Some r ->
     methName_ a ∈ vAllowedMeth METH_VPTREE METH_PERM_BIN_VPTREE ->
     getOptimMetric ToLower (default OPTIM_METRIC_DEFAULT (metricParam a))
       <> IMPR_INVALID ->
     MaxExp a = 0%N ->
     RunExper a = Fatal "Exception: minExp can't be zero!") /\
  (reaches_search a -> MinExp a = 0%N -> (AddRestartQty a < UINT_MAX)%N ->
   (0, 0)%N ∈ searched_pairs
                (tune_loop (AddRestartQty a) (MinExp a) (MaxExp a)) /\
   RunExper a <> Fatal "Exception: minExp can't be zero!").
Proof.
  split.
  - intros r Hr Hm Hmet Hmax. unfold Tune.RunExper. rewrite Hr.
    rewrite (bool_decide_eq_true_2 _ Hm). cbn [negb].
    destruct (getOptimMetric ToLower _); [| |contradiction];
      now rewrite Hmax.
  - intros Hchk Hmin HR. split.
    + destruct Hchk as (r & _ & _ & _ & _ & Hle & _).
      apply diagonal_pair_searched; [lia | exact HR].
    + rewrite (TuneFacts.RunExper_after_checks _ _ _ _ _ _ Hchk). cbv zeta.
      destruct (Qlt_bool _ _); [discriminate|].
      destruct (negb (String.eqb _ _)); [|discriminate].
      destruct (negb (file_opened a)); discriminate.
Qed.

(** X28.  [RunExper] returns normally only when all its checks have passed
    and the recall of the best result is at least the target; it then has
    written the best parameters exactly when a result file was named (and
    could be opened). *)
Theorem RunExper_returns_only_on_success (a : Args) (w : option BestParams) :
  RunExper a = Returned w ->
  reaches_search a /\
  (desiredRecall a
   <= recall (best (tune_loop (AddRestartQty a) (MinExp a) (MaxExp a))))%Q /\
  (ResFile a = ""%string -> w = None) /\
  (ResFile a <> ""%string ->
   file_opened a = true /\
   w = Some (bestParams
               (best (tune_loop (AddRestartQty a) (MinExp a) (MaxExp a))))).
Proof.
  unfold Tune.RunExper, Spec.reaches_search.
  destruct (rangeAll a) as [r|]; [|discriminate].
  destruct (bool_decide _) eqn:Em; cbn [negb]; [|discriminate].
  apply bool_decide_eq_true_1 in Em. cbv zeta.
  destruct (getOptimMetric ToLower _) eqn:Emet; try discriminate;
    (destruct (N.eqb_spec (MaxExp a) 0); [discriminate|]);
    (destruct (N.ltb_spec (MaxExp a) (MinExp a)); [discriminate|]);
    (destruct (Nat.eqb_spec (length r + length (knnAll a)) 1);
       cbn [negb]; [|discriminate]);
    (destruct (space_created a) eqn:Esp; cbn [negb]; [|discriminate]);
    (destruct (N.eqb_spec (MaxExp a) UINT_MAX); [discriminate|]);
    (destruct (Qlt_bool _ _) eqn:Erec; [discriminate|]);
    apply Qlt_bool_false_iff in Erec;
    (destruct (String.eqb_spec (ResFile a) "") as [Ef|Ef]; cbn [negb];
       [intros [= <-]
       |destruct (file_opened a); cbn [negb]; [intros [= <-] | discriminate]]);
    (split; [exists r; repeat split; auto; discriminate|]);
    (split; [exact Erec|]);
    (split; [intros; congruence || reflexivity | intros; auto; contradiction]).
Qed.
End Loop.

Lemma number_of_searches_witness :
  N.of_nat (length (calls (Tune.tune_loop
                             (sample_search (mkLocal 1 1 1 1 1))
                             sample_draws 4 1 3))) = 15%N.
Proof.
  apply (number_of_searches (sample_search (mkLocal 1 1 1 1 1)) sample_draws
           4 1 3); [lia | reflexivity | reflexivity].
Defined.

Lemma best_is_the_maximum_witness :
  (3 <= impr_best
          (best (Tune.tune_loop (sample_search (mkLocal (1 # 2) 1 3 2 2))
                   sample_draws 0 1 1)))%Q.
Proof.
  apply (proj1 (proj2 (best_is_the_maximum
                         (sample_search (mkLocal (1 # 2) 1 3 2 2))
                         sample_draws 0 1 1)) 0%nat (mkCall 1 1 1 1)).
  reflexivity.
Defined.

Lemma zero_exponent_guard_witness :
  (0, 0)%N ∈ searched_pairs
               (Tune.tune_loop (sample_search (mkLocal 1 1 1 1 1))
                  sample_draws 0 0 2).
Proof.
  apply (proj2 (zero_exponent_guard (fun s => s) "vptree" "perm_bin_vptree"
                  (sample_search (mkLocal 1 1 1 1 1)) sample_draws
                  (sample_args 0 2))).
  - exists []. cbn. repeat split; try (discriminate || lia).
    apply list_elem_of_In. simpl. auto.
  - reflexivity.
  - reflexivity.
Defined.

Lemma RunExper_returns_only_on_success_witness :
  (9 # 10 <= recall (best (Tune.tune_loop
                             (sample_search (mkLocal 1 1 3 2 2))
                             sample_draws 0 1 2)))%Q.
Proof.
  apply (proj1 (proj2 (RunExper_returns_only_on_success
                         (fun s => s) "vptree" "perm_bin_vptree"
                         (sample_search (mkLocal 1 1 3 2 2)) sample_draws
                         (sample_args 1 2)
                         (Some (mkBestParams 2 2 1 1))
                         ltac:(vm_compute; reflexivity)))).
Defined.

End TuneMore.

(** ** The greedy search over the k-NN graph *)

Module GreedyFacts.
Import NNDescentMethodOld Notions.

Section Greedy.
Variable nn : list (list (option nat)).
Variable dist : nat -> Q.

#[local] Abbreviation visit := (NNDescentMethodOld.visit dist).
#[local] Abbreviation round := (NNDescentMethodOld.round nn dist).
#[local] Abbreviation descend := (NNDescentMethodOld.descend nn dist).
#[local] Abbreviation count_closer := (Notions.count_closer dist).

Lemma count_closer_mono (l : list nat) (x y : Q) :
  (x <= y)%Q -> (count_closer l x <= count_closer l y)%nat.
Proof.
  intros Hxy. induction l as [|j l IH]; cbn [Notions.count_closer]; [lia|].
  destruct (Qlt_bool (dist j) x) eqn:Ex.
  - apply Qlt_bool_iff in Ex.
    assert (Ey : Qlt_bool (dist j) y = true) by (apply Qlt_bool_iff; lra).
    rewrite Ey. lia.
  - destruct (Qlt_bool (dist j) y); lia.
Qed.

Lemma count_closer_strict (l : list nat) (x y : Q) (j0 : nat) :
  j0 ∈ l -> (x <= dist j0)%Q -> (dist j0 < y)%Q ->
  (count_closer l x < count_closer l y)%nat.
Proof.
  intros Hin Hx Hy.
  assert (Hxy : (x <= y)%Q) by lra.
  induction l as [|j l IH]; [inversion Hin|].
  cbn [Notions.count_closer].
  pose proof (count_closer_mono l x y Hxy) as Hm.
  apply elem_of_cons in Hin as [<-|Hin].
  - assert (Ex : Qlt_bool (dist j0) x = false)
      by (apply Qlt_bool_false_iff; exact Hx).
    assert (Ey : Qlt_bool (dist j0) y = true) by (now apply Qlt_bool_iff).
    rewrite Ex, Ey. lia.
  - specialize (IH Hin).
    destruct (Qlt_bool (dist j) x) eqn:Ex.
    + apply Qlt_bool_iff in Ex.
      assert (Ey : Qlt_bool (dist j) y = true) by (apply Qlt_bool_iff; lra).
      rewrite Ey. lia.
    + destruct (Qlt_bool (dist j) y); lia.
Qed.

Lemma count_closer_below_length (l : list nat) (x : Q) (j0 : nat) :
  j0 ∈ l -> (x <= dist j0)%Q -> (count_closer l x < length l)%nat.
Proof.
  intros Hin Hx. induction l as [|j l IH]; [inversion Hin|].
  cbn [Notions.count_closer length].
  assert (Hle : forall l', (count_closer l' x <= length l')%nat).
  { induction l' as [|k l' IH']; cbn [Notions.count_closer length]; [lia|].
    destruct (Qlt_bool _ _); lia. }
  apply elem_of_cons in Hin as [<-|Hin].
  - assert (Ex : Qlt_bool (dist j0) x = false)
      by (apply Qlt_bool_false_iff; exact Hx).
    rewrite Ex. specialize (Hle l). lia.
  - specialize (IH Hin). destruct (Qlt_bool _ _); lia.
Qed.

Lemma count_below_nodes (c : nat) :
  (c < length nn)%nat ->
  (count_closer (seq 0 (length nn)) (dist c) < length nn)%nat.
Proof.
  intros Hc.
  pose proof (count_closer_below_length (seq 0 (length nn)) (dist c) c) as H.
  rewrite length_seq in H. apply H; [|lra].
  apply list_elem_of_In, in_seq. lia.
Qed.

(** What one pass over a neighbour list does to the walk. *)
Lemma foldl_visit (l : list (option nat)) : forall w,
  (currDist (foldl visit w l) <= currDist w)%Q /\
  (forall j, Some j ∈ l -> (currDist (foldl visit w l) <= dist j)%Q) /\
  ((curr (foldl visit w l) = curr w /\
    currDist (foldl visit w l) = currDist w) \/
   (Some (curr (foldl visit w l)) ∈ l /\
    (currDist (foldl visit w l) < currDist w)%Q)) /\
  (currDist w = dist (curr w) ->
   currDist (foldl visit w l) = dist (curr (foldl visit w l))) /\
  (exists new, added (foldl visit w l) = added w ++ new /\
               forall d j, (d, j) ∈ new -> d = dist j).
Proof.
  induction l as [|e l IH]; intros w; cbn [foldl].
  - repeat split; try lra; auto.
    + intros j Hj. inversion Hj.
    + exists []. split; [now rewrite app_nil_r | intros d j Hj; inversion Hj].
  - destruct (IH (visit w e)) as (H1 & H2 & H3 & H4 & new & H5 & H6).
    destruct e as [currNew|]; cbn [NNDescentMethodOld.visit] in *.
    + destruct (Qlt_bool (dist currNew) (currDist w)) eqn:E;
        cbn [curr currDist added] in *.
      * apply Qlt_bool_iff in E. repeat split.
        -- lra.
        -- intros j Hj. apply elem_of_cons in Hj as [[= ->]|Hj]; auto.
        -- right. destruct H3 as [[Hc Hd]|[Hin Hlt]].
           ++ rewrite Hc, Hd. split; [left | exact E].
           ++ split; [now right | lra].
        -- intros _. now apply H4.
        -- exists ((dist currNew, currNew) :: new). split.
           ++ rewrite H5, <- app_assoc. reflexivity.
           ++ intros d j Hj. apply elem_of_cons in Hj as [[= -> ->]|Hj]; auto.
      * apply Qlt_bool_false_iff in E. repeat split.
        -- exact H1.
        -- intros j Hj. apply elem_of_cons in Hj as [[= ->]|Hj]; auto. lra.
        -- destruct H3 as [[Hc Hd]|[Hin Hlt]]; [left; auto|].
           right. split; [now right | exact Hlt].
        -- exact H4.
        -- exists ((dist currNew, currNew) :: new). split.
           ++ rewrite H5, <- app_assoc. reflexivity.
           ++ intros d j Hj. apply elem_of_cons in Hj as [[= -> ->]|Hj]; auto.
    + repeat split; auto.
      * intros j Hj. apply elem_of_cons in Hj as [Hj|Hj]; [discriminate|auto].
      * destruct H3 as [H3|[Hin Hlt]]; [now left|].
        right. split; [now right | exact Hlt].
      * exists new. auto.
Qed.

(** The walk ends, within as many rounds as there are nodes strictly closer
    to the query than the current one, plus one. *)
Lemma descend_ends (Hclosed : closed_graph nn) : forall fuel w,
  (curr w < length nn)%nat -> currDist w = dist (curr w) ->
  (count_closer (seq 0 (length nn)) (currDist w) < fuel)%nat ->
  exists w',
    descend fuel w = Some w' /\
    (curr w' < length nn)%nat /\ currDist w' = dist (curr w') /\
    local_minimum nn dist (curr w') /\
    (currDist w' <= currDist w)%Q /\
    exists new, added w' = added w ++ new /\
                forall d j, (d, j) ∈ new -> d = dist j.
Proof.
  induction fuel as [|fuel IH]; intros w Hlt Hd Hfuel; [lia|].
  cbn [NNDescentMethodOld.descend]. unfold NNDescentMethodOld.round.
  destruct (lookup_lt_is_Some_2 nn (curr w) Hlt) as [l Hl].
  rewrite Hl. change (default [] (Some l)) with l.
  destruct (foldl_visit l w) as (H1 & H2 & H3 & H4 & new & H5 & H6).
  set (w1 := foldl visit w l) in *.
  destruct (curr w =? curr w1)%nat eqn:Ecmp;
    [apply Nat.eqb_eq in Ecmp as Heq | apply Nat.eqb_neq in Ecmp as Hne].
  - exists w1. split; [reflexivity|].
    split; [rewrite <- Heq; exact Hlt|].
    split; [exact (H4 Hd)|].
    split; [|split; [exact H1 | exists new; auto]].
    intros l' j Hl' Hj. rewrite <- Heq in Hl'. rewrite Hl in Hl'.
    injection Hl' as <-. rewrite <- (H4 Hd). now apply H2.
  - destruct H3 as [[Hc _]|[Hin Hless]]; [congruence|].
    assert (Hlt1 : (curr w1 < length nn)%nat) by (eapply Hclosed; eassumption).
    specialize (H4 Hd).
    destruct (IH w1 Hlt1 H4) as (w' & Hw' & Hb & Hdw & Hmin & Hle & new' & Ha & Hn).
    { assert (count_closer (seq 0 (length nn)) (currDist w1)
              < count_closer (seq 0 (length nn)) (currDist w))%nat; [|lia].
      apply (count_closer_strict _ _ _ (curr w1)).
      - apply list_elem_of_In, in_seq. lia.
      - rewrite H4. lra.
      - now rewrite <- H4. }
    exists w'. split; [exact Hw'|].
    split; [exact Hb|]. split; [exact Hdw|]. split; [exact Hmin|].
    split; [lra|].
    exists (new ++ new'). split.
    + rewrite Ha, H5, <- app_assoc. reflexivity.
    + intros d j Hj. apply elem_of_app in Hj as [Hj|Hj]; auto.
Qed.

Lemma descend_more_fuel : forall fuel fuel' w w',
  descend fuel w = Some w' -> (fuel <= fuel')%nat ->
  descend fuel' w = Some w'.
Proof.
  induction fuel as [|fuel IH]; intros fuel' w w' Hd Hle; [discriminate|].
  destruct fuel' as [|fuel']; [lia|].
  cbn [NNDescentMethodOld.descend] in *.
  destruct (_ =? _)%nat; [exact Hd|].
  apply (IH fuel'); [exact Hd | lia].
Qed.

(** X29.  The greedy walk of [SearchGreedy] always ends on a graph whose
    neighbour lists name nodes of the graph: from any start node it stops
    after at most as many rounds as there are nodes, at a node none of whose
    neighbours is closer to the query, and that node is not farther than
    the start. *)
Theorem greedy_walk_reaches_local_minimum (start : nat) (sofar : list Added) :
  closed_graph nn -> (start < length nn)%nat ->
  exists w',
    (forall fuel, (length nn <= fuel)%nat ->
       descend fuel (mkWalk start (dist start) sofar) = Some w') /\
    (curr w' < length nn)%nat /\
    local_minimum nn dist (curr w') /\
    (dist (curr w') <= dist start)%Q.
Proof.
  intros Hclosed Hstart.
  destruct (descend_ends Hclosed (length nn) (mkWalk start (dist start) sofar))
    as (w' & Hw' & Hb & Hdw & Hmin & Hle & _); cbn [curr currDist]; auto.
  { now apply count_below_nodes. }
  exists w'. repeat split; auto.
  - intros fuel Hf. now apply (descend_more_fuel (length nn)).
  - cbn [currDist] in Hle. now rewrite <- Hdw.
Qed.

(** X30.  [SearchGreedy] returns for every list of start nodes of the
    graph; it keeps the calls of [CheckAndAddToResult] made before, reports
    every start node, and every call it adds carries the distance of the
    node it names. *)
Theorem SearchGreedy_returns (starts : list nat) :
  closed_graph nn ->
  (forall s, s ∈ starts -> (s < length nn)%nat) ->
  forall sofar, exists new,
    NNDescentMethodOld.SearchGreedy nn dist (length nn) starts sofar
    = Some (sofar ++ new) /\
    (forall s, s ∈ starts -> (dist s, s) ∈ new) /\
    (forall d j, (d, j) ∈ new -> d = dist j).
Proof.
  intros Hclosed. induction starts as [|s rest IH]; intros Hall sofar.
  - exists []. cbn. rewrite app_nil_r. repeat split.
    + intros s Hs. inversion Hs.
    + intros d j Hj. inversion Hj.
  - cbn [NNDescentMethodOld.SearchGreedy].
    assert (Hs : (s < length nn)%nat) by (apply Hall; left).
    destruct (descend_ends Hclosed (length nn)
                (mkWalk s (dist s) (sofar ++ [(dist s, s)])))
      as (w' & Hw' & _ & _ & _ & _ & new1 & Ha & Hn1); cbn [curr currDist]; auto.
    { now apply count_below_nodes. }
    rewrite Hw'. cbn [added] in Ha.
    destruct (IH (fun x Hx => Hall x (list_elem_of_further _ _ _ Hx)) (added w'))
      as (new2 & Hr & Hstarts & Hn2).
    exists ((dist s, s) :: new1 ++ new2). split; [|split].
    + rewrite Hr, Ha, <- !app_assoc. reflexivity.
    + intros x Hx. apply elem_of_cons in Hx as [->|Hx]; [left|].
      right. apply elem_of_app. right. now apply Hstarts.
    + intros d j Hj. apply elem_of_cons in Hj as [[= -> ->]|Hj]; [reflexivity|].
      apply elem_of_app in Hj as [Hj|Hj]; auto.
Qed.
End Greedy.

Lemma sample_graph_closed : closed_graph sample_graph.
Proof.
  intros i l j Hl Hj.
  destruct i as [|[|[|i]]]; cbn in Hl; try discriminate;
    injection Hl as <-;
    repeat (apply elem_of_cons in Hj as [Hj|Hj];
            [try discriminate; injection Hj as ->; cbn; lia|]);
    inversion Hj.
Qed.

Lemma greedy_walk_reaches_local_minimum_witness :
  exists w',
    NNDescentMethodOld.descend sample_graph sample_dist 3
      (mkWalk 0 (sample_dist 0) []) = Some w' /\
    local_minimum sample_graph sample_dist (curr w').
Proof.
  destruct (greedy_walk_reaches_local_minimum sample_graph sample_dist 0 []
              sample_graph_closed ltac:(cbn; lia))
    as (w' & Hrun & _ & Hmin & _).
  exists w'. split; [apply Hrun; cbn; lia | exact Hmin].
Defined.

Lemma SearchGreedy_returns_witness :
  exists new,
    NNDescentMethodOld.SearchGreedy sample_graph sample_dist 3 [0; 2]%nat []
    = Some new /\
    (sample_dist 2, 2%nat) ∈ new.
Proof.
  destruct (SearchGreedy_returns sample_graph sample_dist [0; 2]%nat
              sample_graph_closed) with (sofar := @nil Added)
    as (new & Hrun & Hstarts & _).
  - intros s Hs.
    repeat (apply elem_of_cons in Hs as [->|Hs]; [cbn; lia|]).
    inversion Hs.
  - exists new. split; [exact Hrun|]. apply Hstarts. right. left.
Defined.

End GreedyFacts.
